(** * jlib string functions: matcher protocol, split, match, replace

    A shallow embedding of the pattern-matching part of [jlib/string.go]
    (Contains, Split, Match, Replace, extractMatches, callMatchFunc,
    expandReplaceString, runesToNumbers) and the properties of it that the
    specification states.

    Conventions of the embedding:
    - a Go [string] is its sequence of bytes, [list ascii]; [len] and the
      slice expressions [s[a:b]] count bytes, as Go does;
    - a Go [int] is a [Z]; where the source computes with [int] values that
      can leave the 64-bit range (runesToNumbers) the wrap-around is
      written out with [wrap64];
    - a run-time panic (slice or index out of range) is the outcome [Panic];
      an [error] return is the outcome [Err];
    - every invocation of a [jtypes.Callable] is counted: a computation is
      a pair of the number of capability calls it made and its outcome. *)

From Stdlib Require Import ZArith List Ascii String Bool Lia QArith_base Permutation.
Import ListNotations.

Local Open Scope Z_scope.

(** ** Go strings, lengths and slices *)

Definition bytes := list ascii.

Definition error := string.

Definition go (s : string) : bytes := list_ascii_of_string s.

Definition len {A : Type} (l : list A) : Z := Z.of_nat (List.length l).

Inductive outcome (A : Type) : Type :=
| Ok (a : A)
| Err (e : error)
| Panic.

Arguments Ok {A} a.
Arguments Err {A} e.
Arguments Panic {A}.

(** The text between two offsets, with no bounds check. *)
Definition sub {A : Type} (s : list A) (a b : Z) : list A :=
  firstn (Z.to_nat (b - a)) (skipn (Z.to_nat a) s).

(** The slice expression [s[a:b]]: it panics unless [0 <= a <= b <= len s]. *)
Definition slice {A : Type} (s : list A) (a b : Z) : outcome (list A) :=
  if (0 <=? a) && (a <=? b) && (b <=? len s) then Ok (sub s a b) else Panic.

(** ** Computations that call capabilities

    [fst] is the number of [Callable.Call] invocations made, [snd] the outcome. *)

Definition M (A : Type) : Type := (nat * outcome A)%type.

Definition ret {A : Type} (a : A) : M A := (O, Ok a).

Definition fail {A : Type} (e : error) : M A := (O, Err e).

Definition lift {A : Type} (o : outcome A) : M A := (O, o).

Definition bind {A B : Type} (x : M A) (k : A -> M B) : M B :=
  match x with
  | (n, Ok a) => let (n', r) := k a in ((n + n')%nat, r)
  | (n, Err e) => (n, Err e)
  | (n, Panic) => (n, Panic)
  end.

Definition tick {A : Type} (x : M A) : M A := (S (fst x), snd x).

Definition calls {A : Type} (x : M A) : nat := fst x.

Definition result {A : Type} (x : M A) : outcome A := snd x.

Notation "x <- c1 ;; c2" := (bind c1 (fun x => c2))
  (at level 61, c1 at next level, right associativity).

(** ** Values exchanged with the evaluator (package jtypes) *)

(** Modelled from the spec: the arguments this file passes to a capability
    (package reflect and jtypes are not part of the sources at hand).  They
    are the subject string of the first matcher call and the
    [{match, index, groups}] object given to a replacement function. *)
#[warnings="-register-all"]
Inductive data : Type :=
| DString (s : bytes)
| DInt (n : Z)
| DStrings (l : list bytes)
| DMap (fields : list (string * data)).

(** Modelled from the spec: [reflect.Value] as the jtypes predicates see it
    (IsMap, AsString, AsNumber, IsArrayOf, AsCallable), and [jtypes.Callable]
    with its method [Call(argv) (reflect.Value, error)].  [Invalid] is the
    zero [reflect.Value] ([IsValid()] is false), which is also what
    [MapIndex] returns for a key that is absent: an object is therefore
    given by what [MapIndex] returns at each key.  A number is a float64,
    kept here as the rational it denotes. *)
#[warnings="-register-all"]
Inductive Value : Type :=
| Invalid
| Null
| Bool (b : bool)
| Str (s : bytes)
| Num (x : Q)
| Arr (l : list Value)
| Obj (MapIndex : string -> Value)
| Fn (f : Callable)
with Callable : Type :=
| MkCallable (call : list data -> CallResult)
with CallResult : Type :=
| Returns (v : Value)
| Fails (e : error).

(** [fn.Call(argv)]: one capability invocation. *)
Definition Call (fn : Callable) (argv : list data) : M Value :=
  match fn with
  | MkCallable call =>
      match call argv with
      | Returns v => (1%nat, Ok v)
      | Fails e => (1%nat, Err e)
      end
  end.

Definition AsString (v : Value) : option bytes :=
  match v with Str s => Some s | _ => None end.

Definition AsNumber (v : Value) : option Q :=
  match v with Num x => Some x | _ => None end.

Definition IsString (v : Value) : bool :=
  match v with Str _ => true | _ => false end.

Definition IsArrayOf (v : Value) (p : Value -> bool) : bool :=
  match v with Arr l => forallb p l | _ => false end.

(** The elements of an array, for the loop over [v.Index(i)]. *)
Definition elements (v : Value) : list Value :=
  match v with Arr l => l | _ => [] end.

(** The conversion [int(x)] of a float64: truncation toward zero. *)
Definition int_of_float64 (x : Q) : Z := Z.quot (Qnum x) (Z.pos (Qden x)).

(** Modelled from the spec: [jtypes.OptionalInt], an int and whether the
    argument was given. *)
Record OptionalInt : Type := { Int : Z; IsSet : bool }.

Definition unset : OptionalInt := {| Int := 0; IsSet := false |}.

Definition limit_of (n : Z) : OptionalInt := {| Int := n; IsSet := true |}.

(** ** The match record *)

Record match_ : Type := mkMatch {
  value : bytes;
  indexes : Z * Z;
  groups : list bytes
}.

Definition mstart (m : match_) : Z := fst (indexes m).
Definition mend (m : match_) : Z := snd (indexes m).

(** ** Package strings (Go standard library), on byte strings *)

Definition byte_eqb (a b : ascii) : bool := Ascii.eqb a b.

Fixpoint HasPrefix (s prefix : bytes) : bool :=
  match prefix, s with
  | [], _ => true
  | p :: prefix', c :: s' => byte_eqb p c && HasPrefix s' prefix'
  | _ :: _, [] => false
  end.

(** [strings.Index(s, substr)]: the offset of the first occurrence, or -1. *)
Fixpoint Index (s substr : bytes) : Z :=
  if HasPrefix s substr then 0
  else match s with
       | [] => -1
       | _ :: s' => let i := Index s' substr in if i <? 0 then -1 else i + 1
       end.

(** [strings.Contains(s, substr)] is [Index(s, substr) >= 0]. *)
Definition strings_Contains (s substr : bytes) : bool := Index s substr >=? 0.

(** [strings.IndexRune(s, r)] for a rune [r] below [utf8.RuneSelf], where it
    is the offset of the first byte equal to [r], or -1. *)
Fixpoint IndexRune (s : bytes) (r : ascii) : Z :=
  match s with
  | [] => -1
  | c :: s' => if byte_eqb c r then 0
               else let i := IndexRune s' r in if i <? 0 then -1 else i + 1
  end.

(** [strings.ContainsRune(s, r)] is [IndexRune(s, r) >= 0]. *)
Definition ContainsRune (s : bytes) (r : ascii) : bool := IndexRune s r >=? 0.

(** [strings.Count(s, substr)] for a non-empty [substr]: the loop
    [i := Index(s, substr); if i == -1 return n; n++; s = s[i+len(substr):]].
    Every round drops at least one byte, so [length s] rounds are enough. *)
Fixpoint Count_loop (fuel : nat) (s substr : bytes) : Z :=
  match fuel with
  | O => 0
  | S fuel' =>
      let i := Index s substr in
      if i =? -1 then 0
      else 1 + Count_loop fuel' (skipn (Z.to_nat (i + len substr)) s) substr
  end.

Definition Count (s substr : bytes) : Z := Count_loop (List.length s) s substr.

(** The replacement loop of [strings.Replace] for a non-empty [old], on the
    part of [s] from [start] on: [j := start + Index(s[start:], old)], write
    [s[start:j]] and [new], continue from [j + len(old)]; after [n] rounds
    write the rest. *)
Fixpoint Replace_loop (n : nat) (s old new : bytes) : bytes :=
  match n with
  | O => s
  | S n' =>
      let j := Index s old in
      firstn (Z.to_nat j) s ++ new
        ++ Replace_loop n' (skipn (Z.to_nat (j + len old)) s) old new
  end.

Definition bytes_eqb (a b : bytes) : bool :=
  if list_eq_dec ascii_dec a b then true else false.

(** [strings.Replace(s, old, new, n)] for a non-empty [old], the only case
    this file reaches (replaceString rejects the empty pattern). *)
Definition strings_Replace (s old new : bytes) (n : Z) : bytes :=
  if bytes_eqb old new || (n =? 0) then s
  else
    let m := Count s old in
    if m =? 0 then s
    else
      let n := if (n <? 0) || (m <? n) then m else n in
      Replace_loop (Z.to_nat n) s old new.

(** ** The matcher protocol driver *)

Local Open Scope string_scope.
Local Open Scope list_scope.
Local Open Scope Z_scope.

(** [callMatchFunc]: one call to the capability, validation of what it
    returned, then the same on the continuation [next] with no argument.
    The first two matches below are [res, err := fn.Call(argv)]; the match
    on ["next"] is [jtypes.AsCallable].  The recursion is on the capability:
    a continuation is a part of the value its parent returned. *)
Fixpoint callMatchFunc (fn : Callable) (argv : list data) (matches : list match_)
    {struct fn} : M (list match_) :=
  match fn with
  | MkCallable call =>
    match call argv with
    | Fails e => (1%nat, Err e)
    | Returns res =>
      match res with
      | Invalid => (1%nat, Ok matches)
      | Obj MapIndex =>
        match AsString (MapIndex "match") with
        | None => (1%nat, Err "match function must return an object with a string value named 'match'")
        | Some value =>
        match AsNumber (MapIndex "start") with
        | None => (1%nat, Err "match function must return an object with a number value named 'start'")
        | Some start =>
        match AsNumber (MapIndex "end") with
        | None => (1%nat, Err "match function must return an object with a number value named 'end'")
        | Some end_ =>
        if negb (IsArrayOf (MapIndex "groups") IsString)
        then (1%nat, Err "match function must return an object with a string array value named 'groups'")
        else
          let groups :=
            map (fun v => match AsString v with Some s => s | None => [] end)
                (elements (MapIndex "groups")) in
          match MapIndex "next" with
          | Fn next =>
              tick (callMatchFunc next []
                      (matches ++ [mkMatch value
                                     (int_of_float64 start, int_of_float64 end_)
                                     groups]))
          | _ => (1%nat, Err "match function must return an object with a Callable value named 'next'")
          end
        end end end
      | _ => (1%nat, Err "match function must return an object")
      end
    end
  end.

Definition extractMatches (fn : Callable) (s : bytes) (limit : Z) : M (list match_) :=
  matches <- callMatchFunc fn [DString s] [] ;;
  ret (if (limit >=? 0) && (limit <? len matches)
       then firstn (Z.to_nat limit) matches
       else matches).

(** ** Contains, Split, Match *)

(** [pattern.toInterface()] is the value itself; the type switch
    distinguishes a string, a Callable and anything else. *)
Definition StringCallable := Value.

Definition Contains (s : bytes) (pattern : StringCallable) : M bool :=
  match pattern with
  | Str v => ret (strings_Contains s v)
  | Fn v =>
      matches <- extractMatches v s (-1) ;;
      ret (len matches >? 0)
  | _ => fail "function contains takes a string or a regex"
  end.

(** The loop of Split over the matches, and the final append. *)
Fixpoint splitParts (s : bytes) (matches : list match_) (pos : Z) (parts : list bytes)
    : outcome (list bytes) :=
  match matches with
  | [] =>
      match slice s pos (len s) with
      | Ok part => Ok (parts ++ [part])
      | Err e => Err e
      | Panic => Panic
      end
  | m :: matches' =>
      match slice s pos (fst (indexes m)) with
      | Ok part => splitParts s matches' (snd (indexes m)) (parts ++ [part])
      | Err e => Err e
      | Panic => Panic
      end
  end.

(** [strings_Split] stands for [strings.Split] of the Go standard library,
    which the literal branch delegates to. *)
Definition Split (strings_Split : bytes -> bytes -> list bytes)
    (s : bytes) (separator : StringCallable) (limit : OptionalInt) : M (list bytes) :=
  if Int limit <? 0
  then fail "third argument of the split function must evaluate to a positive number"
  else
    parts <- match separator with
             | Str sep => ret (strings_Split s sep)
             | Fn sep =>
                 matches <- extractMatches sep s (-1) ;;
                 lift (splitParts s matches 0 [])
             | _ => fail "function split takes a string or a regex"
             end ;;
    ret (if IsSet limit && (Int limit <? len parts)
         then firstn (Z.to_nat (Int limit)) parts
         else parts).

(** The object [{match, index, groups}] built from a match record. *)
Definition match_object (m : match_) : list (string * data) :=
  [("match", DString (value m));
   ("index", DInt (fst (indexes m)));
   ("groups", DStrings (groups m))].

Definition Match (s : bytes) (pattern : Callable) (limit : OptionalInt)
    : M (list (list (string * data))) :=
  if Int limit <? 0
  then fail "third argument of function match must evaluate to a positive number"
  else
    let max := if IsSet limit then Int limit else -1 in
    matches <- extractMatches pattern s max ;;
    ret (map match_object matches).

(** ** The token expander *)

Definition wrap64 (z : Z) : Z := (z + 2 ^ 63) mod 2 ^ 64 - 2 ^ 63.

Definition wrap32 (z : Z) : Z := (z + 2 ^ 31) mod 2 ^ 32 - 2 ^ 31.

(** A rune is an int32.  The expander compares the rune decoded at the head
    of the string only with ['$'], ['0'] and ['9']; a head byte of 0x80 or
    more decodes to a rune of 0x80 or more (or to [utf8.RuneError]), so for
    these comparisons the rune is the head byte itself. *)
Definition rune := Z.

Definition rune_of (c : ascii) : rune := Z.of_nat (nat_of_ascii c).

(** [nums[i]] is built from [runes[0..i]] by [nums[i] = nums[i]*10 +
    int(runes[j]-'0')], in int arithmetic. *)
Definition runesToNumbers (runes : list rune) : list Z :=
  map (fun i =>
         fold_left (fun num r => wrap64 (num * 10 + wrap32 (r - rune_of "0"%char)))
                   (firstn (S i) runes) 0)
      (seq 0 (List.length runes)).

(** The loop that collects the leading digits of [s]. *)
Fixpoint digit_run (s : bytes) : list rune :=
  match s with
  | [] => []
  | c :: s' =>
      let r := rune_of c in
      if (r <? rune_of "0"%char) || (r >? rune_of "9"%char) then []
      else r :: digit_run s'
  end.

Inductive group_lookup : Type :=
| Group (i : nat) (text : bytes)
| NoGroup
| BadIndex.

(** The loop [for i := len(indexes) - 1; i >= 0; i--] of expandReplaceString,
    entered with [n = len(indexes)]: the first [i] with
    [indexes[i] - 1 < len(m.groups)] selects [m.groups[indexes[i] - 1]], an
    index expression that panics when the index is negative. *)
Fixpoint expandGroup (indexes : list Z) (groups : list bytes) (n : nat) : group_lookup :=
  match n with
  | O => NoGroup
  | S i =>
      let index := wrap64 (nth i indexes 0 - 1) in
      if index <? len groups
      then if index <? 0 then BadIndex
           else Group i (nth (Z.to_nat index) groups [])
      else expandGroup indexes groups i
  end.

(** The loop of expandReplaceString.  Every round that continues has
    dropped the ['$'] it found, so [S (length s)] rounds are enough
    ([expand_loop_total] below); [None] is a loop cut short by [fuel]. *)
Fixpoint expand_loop (fuel : nat) (s : bytes) (m : match_) (result : bytes)
    : option (outcome bytes) :=
  match fuel with
  | O => None
  | S fuel' =>
      let pos := IndexRune s "$"%char in
      if pos =? -1 then Some (Ok (result ++ s))
      else
        let result := result ++ firstn (Z.to_nat pos) s in
        let s := skipn (Z.to_nat (pos + 1)) s in
        match s with
        | [] => Some (Ok (result ++ go "$"))
        | c :: s1 =>
            let r := rune_of c in
            if (r =? rune_of "$"%char) || (r <? rune_of "0"%char) || (r >? rune_of "9"%char)
            then expand_loop fuel' (if r =? rune_of "$"%char then s1 else s) m
                             (result ++ go "$")
            else if r =? rune_of "0"%char
            then expand_loop fuel' s1 m (result ++ value m)
            else
              let indexes := runesToNumbers (digit_run s) in
              match expandGroup indexes (groups m) (List.length indexes) with
              | Group i text => expand_loop fuel' (skipn (S i) s) m (result ++ text)
              | BadIndex => Some Panic
              | NoGroup => expand_loop fuel' s1 m result
              end
        end
  end.

Definition expandReplaceString (s : bytes) (m : match_) : outcome bytes :=
  match expand_loop (S (List.length s)) s m [] with
  | Some r => r
  | None => Panic
  end.

(** ** The replacement engine *)

Definition callReplaceFunc (f : Callable) (m : match_) : M bytes :=
  v <- Call f [DMap (match_object m)] ;;
  match AsString v with
  | Some repl => ret repl
  | None => fail "third argument of function replace must be a function that returns a string"
  end.

(** The replacement text for one match: the first part of the body of the
    loop of replaceMatchFunc ([f] is [None] for the nil Callable). *)
Definition replacement (f : option Callable) (srepl : bytes) (expandable : bool)
    (m : match_) : M bytes :=
  match f with
  | Some f => callReplaceFunc f m
  | None => if expandable then lift (expandReplaceString srepl m) else ret srepl
  end.

(** The loop [for i := len(matches) - 1; i >= 0; i--] of replaceMatchFunc,
    given the matches in that order. *)
Fixpoint replaceLoop (f : option Callable) (srepl : bytes) (expandable : bool)
    (rmatches : list match_) (src : bytes) : M bytes :=
  match rmatches with
  | [] => ret src
  | m :: rest =>
      repl <- replacement f srepl expandable m ;;
      head <- lift (slice src 0 (fst (indexes m))) ;;
      tail <- lift (slice src (snd (indexes m)) (len src)) ;;
      replaceLoop f srepl expandable rest (head ++ repl ++ tail)
  end.

Definition replaceMatchFunc (src : bytes) (fn : Callable) (repl : StringCallable)
    (limit : Z) : M bytes :=
  match
    match repl with
    | Str r => Some (None, r, ContainsRune r "$"%char)
    | Fn c => Some (Some c, [], false)
    | _ => None
    end
  with
  | None => fail "third argument of function replace must be a string or a function"
  | Some (f, srepl, expandable) =>
      matches <- extractMatches fn src limit ;;
      replaceLoop f srepl expandable (rev matches) src
  end.

Definition replaceString (src pattern : bytes) (repl : StringCallable) (limit : Z)
    : M bytes :=
  match pattern with
  | [] => fail "second argument of function replace can't be an empty string"
  | _ :: _ =>
      match repl with
      | Str s => ret (strings_Replace src pattern s limit)
      | _ => fail "third argument of function replace must be a string when pattern is a string"
      end
  end.

Definition Replace (src : bytes) (pattern repl : StringCallable) (limit : OptionalInt)
    : M bytes :=
  if Int limit <? 0
  then fail "fourth argument of function replace must evaluate to a positive number"
  else
    let max := if IsSet limit then Int limit else -1 in
    match pattern with
    | Str pattern => replaceString src pattern repl max
    | Fn pattern => replaceMatchFunc src pattern repl max
    | _ => fail "second argument of function replace must be a string or a regex"
    end.

(** ** Matchers given by the records they yield *)

(** The object a well-behaved matcher returns for a record. *)
Definition match_result (m : match_) (start end_ : Q) (next : Callable) : Value :=
  Obj (fun key =>
         if String.eqb key "match" then Str (value m)
         else if String.eqb key "start" then Num start
         else if String.eqb key "end" then Num end_
         else if String.eqb key "groups" then Arr (map Str (groups m))
         else if String.eqb key "next" then Fn next
         else Invalid).

(** The matcher that yields the given records in order, then signals the
    end; it ignores its argument, as a continuation does. *)
Fixpoint scripted (ms : list match_) : Callable :=
  MkCallable (fun _ =>
    match ms with
    | [] => Returns Invalid
    | m :: ms' =>
        Returns (match_result m (inject_Z (fst (indexes m)))
                   (inject_Z (snd (indexes m))) (scripted ms'))
    end).

(** [yields fn argv ms]: called with [argv], the capability returns the
    records [ms] one after the other, each in a well-formed result whose
    continuation gives the next one, and then the end of the sequence. *)
Definition text_of (v : Value) : bytes :=
  match AsString v with Some s => s | None => [] end.

Inductive yields : Callable -> list data -> list match_ -> Prop :=
| yields_end call argv :
    call argv = Returns Invalid ->
    yields (MkCallable call) argv []
| yields_next call argv o v start end_ gs next ms :
    call argv = Returns (Obj o) ->
    o "match" = Str v ->
    o "start" = Num start ->
    o "end" = Num end_ ->
    o "groups" = Arr gs ->
    forallb IsString gs = true ->
    o "next" = Fn next ->
    yields next [] ms ->
    yields (MkCallable call) argv
      (mkMatch v (int_of_float64 start, int_of_float64 end_) (map text_of gs) :: ms).

(** A result that is present and has the five fields with their types. *)
Definition well_formed (res : Value) (next : Callable) : Prop :=
  exists o v start end_ gs,
    res = Obj o /\ o "match" = Str v /\ o "start" = Num start /\
    o "end" = Num end_ /\ o "groups" = Arr gs /\ forallb IsString gs = true /\
    o "next" = Fn next.

(** [violates fn argv]: somewhere along the sequence the capability returns
    a result that is present but not well-formed. *)
Inductive violates : Callable -> list data -> Prop :=
| violates_here call argv res :
    call argv = Returns res ->
    res <> Invalid ->
    (forall next, ~ well_formed res next) ->
    violates (MkCallable call) argv
| violates_later call argv res next :
    call argv = Returns res ->
    well_formed res next ->
    violates next [] ->
    violates (MkCallable call) argv.

(** The matches kept under a limit: all of them unless [0 <= limit < len]. *)
Definition taken (limit : Z) (ms : list match_) : list match_ :=
  if (limit >=? 0) && (limit <? len ms) then firstn (Z.to_nat limit) ms else ms.

Definition max_of (limit : OptionalInt) : Z :=
  if IsSet limit then Int limit else -1.

(** Matches placed one after the other between [pos] and [n]. *)
Fixpoint forward (pos : Z) (ms : list match_) (n : Z) : Prop :=
  match ms with
  | [] => pos <= n
  | m :: ms' => pos <= mstart m /\ mstart m <= mend m /\ forward (mend m) ms' n
  end.

(** ** Reference functions, after the words of the specification *)

(** [p] put in front of the text an outcome carries. *)
Definition prepend (p : bytes) (o : outcome bytes) : outcome bytes :=
  match o with
  | Ok x => Ok (p ++ x)
  | Err e => Err e
  | Panic => Panic
  end.

(** [subject[pos:start_1] + repl_1 + subject[end_1:start_2] + ... + repl_k
    + subject[end_k:n]]. *)
Fixpoint splice (s : bytes) (pos n : Z) (ms : list match_) (rs : list bytes) : bytes :=
  match ms, rs with
  | m :: ms', r :: rs' => sub s pos (mstart m) ++ r ++ splice s (mend m) n ms' rs'
  | _, _ => sub s pos n
  end.

(** One segment [subject[prevEnd:start_i]] per match and the trailing
    segment [subject[prevEnd:]]. *)
Fixpoint segments (s : bytes) (prevEnd : Z) (ms : list match_) : outcome (list bytes) :=
  match ms with
  | [] =>
      match slice s prevEnd (len s) with
      | Ok seg => Ok [seg]
      | Err e => Err e
      | Panic => Panic
      end
  | m :: ms' =>
      match slice s prevEnd (mstart m), segments s (mend m) ms' with
      | Ok seg, Ok rest => Ok (seg :: rest)
      | Ok _, Err e => Err e
      | Err e, _ => Err e
      | _, _ => Panic
      end
  end.

(** The first [limit] elements when a limit is set. *)
Definition truncate (limit : OptionalInt) (parts : list bytes) : list bytes :=
  if IsSet limit && (Int limit <? len parts)
  then firstn (Z.to_nat (Int limit)) parts
  else parts.

(** The text of the subject that a match spans. *)
Definition matched_text (s : bytes) (m : match_) : bytes := sub s (mstart m) (mend m).

(** Segments joined again, the [i]-th separator after the [i]-th segment. *)
Fixpoint rejoin (parts seps : list bytes) : bytes :=
  match parts with
  | [] => []
  | p :: parts' =>
      match seps with
      | [] => p ++ rejoin parts' []
      | sep :: seps' => p ++ sep ++ rejoin parts' seps'
      end
  end.

(** The number a string of decimal digits denotes. *)
Definition digit_value (c : ascii) : Z := rune_of c - rune_of "0"%char.

Definition decimal (ds : bytes) : Z :=
  fold_left (fun n c => n * 10 + digit_value c) ds 0.

Definition is_digit (c : ascii) : bool :=
  (rune_of "0"%char <=? rune_of c) && (rune_of c <=? rune_of "9"%char).

Definition starts_with_digit (s : bytes) : bool :=
  match s with
  | [] => false
  | c :: _ => is_digit c
  end.

(** What replaceMatchFunc substitutes for one match, by the kind of the
    replacement argument. *)
Definition replacement_of (repl : StringCallable) (m : match_) : outcome bytes :=
  match repl with
  | Str r => if ContainsRune r "$"%char then expandReplaceString r m else Ok r
  | Fn f => result (callReplaceFunc f m)
  | _ => Err "third argument of function replace must be a string or a function"
  end.

Definition is_replacement (repl : StringCallable) : bool :=
  match repl with
  | Str _ | Fn _ => true
  | _ => false
  end.

(** Three comma separators in ["a,b,c,d"]. *)
Definition commas : list match_ :=
  [mkMatch (go ",") (1, 2) []; mkMatch (go ",") (3, 4) []; mkMatch (go ",") (5, 6) []].

Definition outcome_map {A B : Type} (f : A -> B) (o : outcome A) : outcome B :=
  match o with
  | Ok a => Ok (f a)
  | Err e => Err e
  | Panic => Panic
  end.

(** A matcher whose only result lacks the [groups] field. *)
Definition missing_groups : Callable :=
  MkCallable (fun _ =>
    Returns (Obj (fun key =>
      if String.eqb key "match" then Str (go "a")
      else if String.eqb key "start" then Num (inject_Z 0)
      else if String.eqb key "end" then Num (inject_Z 1)
      else if String.eqb key "next" then Fn (scripted [])
      else Invalid))).

(** A matcher whose first result is well-formed and whose second is not. *)
Definition missing_groups_later : Callable :=
  MkCallable (fun _ =>
    Returns (match_result (mkMatch (go "a") (0, 1) []) (inject_Z 0) (inject_Z 1)
               missing_groups)).

(** A record whose span leaves the three-byte subject it is used on. *)
Definition out_of_range : list match_ := [mkMatch (go "x") (2, 9) []].

(** The matches at [2,4) and [10,12) of a 20-byte subject. *)
Definition two_spans : list match_ :=
  [mkMatch (go "cd") (2, 4) []; mkMatch (go "kl") (10, 12) []].

(** One round of the loop of expandReplaceString, as what it appends to
    [result] and what it leaves of [s]: [Stop] for a round that ends the
    loop, [Again] for one that continues ([expand_loop_round] below). *)
Inductive round : Type :=
| Stop (o : outcome bytes)
| Again (emit : bytes) (rest : bytes).

Definition expand_round (s : bytes) (m : match_) : round :=
  let pos := IndexRune s "$"%char in
  if pos =? -1 then Stop (Ok s)
  else
    let pre := firstn (Z.to_nat pos) s in
    let s := skipn (Z.to_nat (pos + 1)) s in
    match s with
    | [] => Stop (Ok (pre ++ go "$"))
    | c :: s1 =>
        let r := rune_of c in
        if (r =? rune_of "$"%char) || (r <? rune_of "0"%char) || (r >? rune_of "9"%char)
        then Again (pre ++ go "$") (if r =? rune_of "$"%char then s1 else s)
        else if r =? rune_of "0"%char
        then Again (pre ++ value m) s1
        else
          let indexes := runesToNumbers (digit_run s) in
          match expandGroup indexes (groups m) (List.length indexes) with
          | Group i text => Again (pre ++ text) (skipn (S i) s)
          | BadIndex => Stop Panic
          | NoGroup => Again pre s1
          end
    end.

(** ** Other functions of string.go *)

(** [SubstringBefore]: the slice [s[:i]] at the first occurrence, or [s]. *)
Definition SubstringBefore (s substr : bytes) : outcome bytes :=
  let i := Index s substr in
  if i >=? 0 then slice s 0 i else Ok s.

(** [SubstringAfter]: the slice [s[i+len(substr):]], or [s]. *)
Definition SubstringAfter (s substr : bytes) : outcome bytes :=
  let i := Index s substr in
  if i >=? 0 then slice s (i + len substr) (len s) else Ok s.

(** Modelled from the spec: [jtypes.OptionalString], a string and whether
    the argument was given. *)
Record OptionalString : Type := { String_ : bytes; StringIsSet : bool }.

(** [strings.Join(elems, sep)] of the Go standard library: nothing for no
    element, else the first element and then each other one after [sep]. *)
Definition strings_Join (elems : list bytes) (sep : bytes) : bytes :=
  match elems with
  | [] => []
  | e :: rest => e ++ List.concat (map (fun s => sep ++ s) rest)
  end.

(** [Join]: [values] is the value handed over by the evaluator. *)
Definition Join (values : Value) (separator : OptionalString) : M bytes :=
  if negb (IsArrayOf values IsString)
  then match AsString values with
       | Some s => ret s
       | None => fail "function join takes an array of strings"
       end
  else
    let vs := map (fun v => match AsString v with Some s => s | None => [] end)
                  (elements values) in
    ret (strings_Join vs (String_ separator)).

(** [breaks fn argv e]: somewhere along the sequence, after well-formed
    results only, the capability itself returns the error [e]. *)
Inductive breaks : Callable -> list data -> error -> Prop :=
| breaks_here call argv e :
    call argv = Fails e ->
    breaks (MkCallable call) argv e
| breaks_later call argv res next e :
    call argv = Returns res ->
    well_formed res next ->
    breaks next [] e ->
    breaks (MkCallable call) argv e.

(** A matcher that yields one match and whose continuation fails. *)
Definition fails_second : Callable :=
  MkCallable (fun _ =>
    Returns (match_result (mkMatch (go "a") (0, 1) []) (inject_Z 0) (inject_Z 1)
               (MkCallable (fun _ => Fails "engine stopped")))).

(** A replacement function that wraps the matched text in brackets, and one
    that returns a number. *)
Definition bracket : Callable :=
  MkCallable (fun argv =>
    match argv with
    | [DMap (("match", DString v) :: _)] => Returns (Str (go "[" ++ v ++ go "]"))
    | _ => Fails "bad argument"
    end).

Definition returns_number : Callable :=
  MkCallable (fun _ => Returns (Num (inject_Z 1))).

(** ** Package unicode/utf8 (Go standard library) *)

Definition RuneError : rune := 0xFFFD.

(** The table [first] together with [acceptRanges]: what the first byte of
    a sequence says about it ([as] and [xx] for one-byte sequences, else
    the size and the range accepted for the second byte). *)
Inductive first_byte : Type :=
| FirstASCII
| FirstInvalid
| FirstLead (size lo hi : Z).

Definition first (b : Z) : first_byte :=
  if b <? 0x80 then FirstASCII
  else if b <? 0xC2 then FirstInvalid
  else if b <? 0xE0 then FirstLead 2 0x80 0xBF
  else if b =? 0xE0 then FirstLead 3 0xA0 0xBF
  else if b <? 0xED then FirstLead 3 0x80 0xBF
  else if b =? 0xED then FirstLead 3 0x80 0x9F
  else if b <? 0xF0 then FirstLead 3 0x80 0xBF
  else if b =? 0xF0 then FirstLead 4 0x90 0xBF
  else if b <? 0xF4 then FirstLead 4 0x80 0xBF
  else if b =? 0xF4 then FirstLead 4 0x80 0x8F
  else FirstInvalid.

(** The body of [utf8.DecodeRuneInString] after the test for the empty
    string, on the length [n] and the bytes [s[0]..s[3]] (read only where
    [n] allows): the rune and its width. *)
Definition decode (n s0 s1 s2 s3 : Z) : rune * Z :=
  match first s0 with
  | FirstASCII => (s0, 1)
  | FirstInvalid => (RuneError, 1)
  | FirstLead sz lo hi =>
      if n <? sz then (RuneError, 1)
      else if (s1 <? lo) || (hi <? s1) then (RuneError, 1)
      else if sz <=? 2
      then (Z.lor (Z.shiftl (Z.land s0 0x1F) 6) (Z.land s1 0x3F), 2)
      else if (s2 <? 0x80) || (0xBF <? s2) then (RuneError, 1)
      else if sz <=? 3
      then (Z.lor (Z.lor (Z.shiftl (Z.land s0 0x0F) 12) (Z.shiftl (Z.land s1 0x3F) 6))
                  (Z.land s2 0x3F), 3)
      else if (s3 <? 0x80) || (0xBF <? s3) then (RuneError, 1)
      else (Z.lor (Z.lor (Z.lor (Z.shiftl (Z.land s0 0x07) 18)
                                (Z.shiftl (Z.land s1 0x3F) 12))
                         (Z.shiftl (Z.land s2 0x3F) 6))
                  (Z.land s3 0x3F), 4)
  end.

Definition byte_at (s : bytes) (i : nat) : Z := rune_of (nth i s zero).

Definition DecodeRuneInString (s : bytes) : rune * Z :=
  match s with
  | [] => (RuneError, 0)
  | _ :: _ => decode (len s) (byte_at s 0) (byte_at s 1) (byte_at s 2) (byte_at s 3)
  end.

(** The width of the rune at the head of [s], which is also the step of a
    [for pos := range s] loop. *)
Definition rune_width (s : bytes) : nat := Z.to_nat (snd (DecodeRuneInString s)).

(** [utf8.RuneCountInString]: the number of runes, a byte that starts no
    valid sequence counting for one.  Each round drops at least one byte. *)
Fixpoint RuneCount_loop (fuel : nat) (s : bytes) : Z :=
  match fuel with
  | O => 0
  | S fuel' =>
      match s with
      | [] => 0
      | _ :: _ => 1 + RuneCount_loop fuel' (skipn (rune_width s) s)
      end
  end.

Definition RuneCountInString (s : bytes) : Z := RuneCount_loop (List.length s) s.

(** ** Substring, Pad and their helpers *)

(** [positionOfNthRune]: the loop [for pos := range s], on what is left of
    [s] at offset [pos] with [i] runes passed. *)
Fixpoint positionOfNthRune_loop (fuel : nat) (s : bytes) (pos i n : Z) : Z :=
  match fuel with
  | O => -1
  | S fuel' =>
      match s with
      | [] => -1
      | _ :: _ =>
          if i =? n then pos
          else positionOfNthRune_loop fuel' (skipn (rune_width s) s)
                 (pos + Z.of_nat (rune_width s)) (i + 1) n
      end
  end.

Definition positionOfNthRune (s : bytes) (n : Z) : Z :=
  positionOfNthRune_loop (List.length s) s 0 0 n.

Definition abs (n : Z) : Z := if n <? 0 then wrap64 (- n) else n.

Definition outcome_bind {A B : Type} (o : outcome A) (k : A -> outcome B) : outcome B :=
  match o with
  | Ok a => k a
  | Err e => Err e
  | Panic => Panic
  end.

(** [start += RuneCountInString(s)] adds a length to a negative int and
    cannot leave the int range. *)
Definition Substring (s : bytes) (start : Z) (length : OptionalInt) : outcome bytes :=
  if (IsSet length && (Int length <=? 0)) || (start >=? RuneCountInString s)
  then Ok []
  else
    let start := if start <? 0 then start + RuneCountInString s else start in
    outcome_bind
      (if start >? 0 then slice s (positionOfNthRune s start) (len s) else Ok s)
      (fun s =>
         if IsSet length && (Int length <? RuneCountInString s)
         then slice s 0 (positionOfNthRune s (Int length))
         else Ok s).

(** [strings.Repeat(s, count)] of the Go standard library, with the overflow
    test of Go 1.22, the version the repository's workflow installs: it
    panics on a negative count and when [len(s) >= maxInt/count]. *)
Definition strings_Repeat (s : bytes) (count : Z) : outcome bytes :=
  if count =? 0 then Ok []
  else if count =? 1 then Ok s
  else if count <? 0 then Panic
  else if len s >=? Z.quot (2 ^ 63 - 1) count then Panic
  else Ok (List.concat (repeat s (Z.to_nat count))).

Definition Pad (s : bytes) (width : Z) (chars : OptionalString) : outcome bytes :=
  let padlen := wrap64 (abs width - RuneCountInString s) in
  if padlen <=? 0 then Ok s
  else
    let ch := match String_ chars with [] => go " " | _ :: _ => String_ chars end in
    outcome_bind (strings_Repeat ch padlen) (fun padding =>
    outcome_bind
      (if RuneCountInString padding >? padlen
       then slice padding 0 (positionOfNthRune padding padlen)
       else Ok padding)
      (fun padding =>
         if width <? 0 then Ok (padding ++ s) else Ok (s ++ padding))).

(** The pieces a [for range s] loop steps over: [s] cut where each rune
    starts.  This is the reading of a string as a sequence of characters
    that [Substring] and [Pad] are compared with. *)
Fixpoint runes_loop (fuel : nat) (s : bytes) : list bytes :=
  match fuel with
  | O => []
  | S fuel' =>
      match s with
      | [] => []
      | _ :: _ => firstn (rune_width s) s :: runes_loop fuel' (skipn (rune_width s) s)
      end
  end.

Definition runes (s : bytes) : list bytes := runes_loop (List.length s) s.

(** Text in which every byte is a character of its own (below [RuneSelf]). *)
Definition single_byte (s : bytes) : bool := forallb (fun c => rune_of c <? 0x80) s.

(** A sample with a character of two bytes: h, e with an acute accent
    (U+00E9), l, l, o. *)
Definition hello : bytes := go "h" ++ ["195"%char; "169"%char] ++ go "llo".

(** ** Decimal format options *)

(** [jxpath.DecimalFormat] as this file uses it: the fields that
    [updateDecimalFormat] assigns, a rune or a string each. *)
Record DecimalFormat : Type := {
  DecimalSeparator : rune;
  GroupSeparator : rune;
  ExponentSeparator : rune;
  MinusSign : rune;
  Infinity : bytes;
  NaN : bytes;
  Percent : bytes;
  PerMille : bytes;
  ZeroDigit : rune;
  OptionalDigit : rune;
  PatternSeparator : rune
}.

(** The assignments [format.F = x], one per field. *)
Definition with_DecimalSeparator (format : DecimalFormat) (x : rune) : DecimalFormat :=
  {| DecimalSeparator := x;
     GroupSeparator := GroupSeparator format;
     ExponentSeparator := ExponentSeparator format;
     MinusSign := MinusSign format;
     Infinity := Infinity format;
     NaN := NaN format;
     Percent := Percent format;
     PerMille := PerMille format;
     ZeroDigit := ZeroDigit format;
     OptionalDigit := OptionalDigit format;
     PatternSeparator := PatternSeparator format |}.

Definition with_GroupSeparator (format : DecimalFormat) (x : rune) : DecimalFormat :=
  {| DecimalSeparator := DecimalSeparator format;
     GroupSeparator := x;
     ExponentSeparator := ExponentSeparator format;
     MinusSign := MinusSign format;
     Infinity := Infinity format;
     NaN := NaN format;
     Percent := Percent format;
     PerMille := PerMille format;
     ZeroDigit := ZeroDigit format;
     OptionalDigit := OptionalDigit format;
     PatternSeparator := PatternSeparator format |}.

Definition with_ExponentSeparator (format : DecimalFormat) (x : rune) : DecimalFormat :=
  {| DecimalSeparator := DecimalSeparator format;
     GroupSeparator := GroupSeparator format;
     ExponentSeparator := x;
     MinusSign := MinusSign format;
     Infinity := Infinity format;
     NaN := NaN format;
     Percent := Percent format;
     PerMille := PerMille format;
     ZeroDigit := ZeroDigit format;
     OptionalDigit := OptionalDigit format;
     PatternSeparator := PatternSeparator format |}.

Definition with_MinusSign (format : DecimalFormat) (x : rune) : DecimalFormat :=
  {| DecimalSeparator := DecimalSeparator format;
     GroupSeparator := GroupSeparator format;
     ExponentSeparator := ExponentSeparator format;
     MinusSign := x;
     Infinity := Infinity format;
     NaN := NaN format;
     Percent := Percent format;
     PerMille := PerMille format;
     ZeroDigit := ZeroDigit format;
     OptionalDigit := OptionalDigit format;
     PatternSeparator := PatternSeparator format |}.

Definition with_Infinity (format : DecimalFormat) (x : bytes) : DecimalFormat :=
  {| DecimalSeparator := DecimalSeparator format;
     GroupSeparator := GroupSeparator format;
     ExponentSeparator := ExponentSeparator format;
     MinusSign := MinusSign format;
     Infinity := x;
     NaN := NaN format;
     Percent := Percent format;
     PerMille := PerMille format;
     ZeroDigit := ZeroDigit format;
     OptionalDigit := OptionalDigit format;
     PatternSeparator := PatternSeparator format |}.

Definition with_NaN (format : DecimalFormat) (x : bytes) : DecimalFormat :=
  {| DecimalSeparator := DecimalSeparator format;
     GroupSeparator := GroupSeparator format;
     ExponentSeparator := ExponentSeparator format;
     MinusSign := MinusSign format;
     Infinity := Infinity format;
     NaN := x;
     Percent := Percent format;
     PerMille := PerMille format;
     ZeroDigit := ZeroDigit format;
     OptionalDigit := OptionalDigit format;
     PatternSeparator := PatternSeparator format |}.

Definition with_Percent (format : DecimalFormat) (x : bytes) : DecimalFormat :=
  {| DecimalSeparator := DecimalSeparator format;
     GroupSeparator := GroupSeparator format;
     ExponentSeparator := ExponentSeparator format;
     MinusSign := MinusSign format;
     Infinity := Infinity format;
     NaN := NaN format;
     Percent := x;
     PerMille := PerMille format;
     ZeroDigit := ZeroDigit format;
     OptionalDigit := OptionalDigit format;
     PatternSeparator := PatternSeparator format |}.

Definition with_PerMille (format : DecimalFormat) (x : bytes) : DecimalFormat :=
  {| DecimalSeparator := DecimalSeparator format;
     GroupSeparator := GroupSeparator format;
     ExponentSeparator := ExponentSeparator format;
     MinusSign := MinusSign format;
     Infinity := Infinity format;
     NaN := NaN format;
     Percent := Percent format;
     PerMille := x;
     ZeroDigit := ZeroDigit format;
     OptionalDigit := OptionalDigit format;
     PatternSeparator := PatternSeparator format |}.

Definition with_ZeroDigit (format : DecimalFormat) (x : rune) : DecimalFormat :=
  {| DecimalSeparator := DecimalSeparator format;
     GroupSeparator := GroupSeparator format;
     ExponentSeparator := ExponentSeparator format;
     MinusSign := MinusSign format;
     Infinity := Infinity format;
     NaN := NaN format;
     Percent := Percent format;
     PerMille := PerMille format;
     ZeroDigit := x;
     OptionalDigit := OptionalDigit format;
     PatternSeparator := PatternSeparator format |}.

Definition with_OptionalDigit (format : DecimalFormat) (x : rune) : DecimalFormat :=
  {| DecimalSeparator := DecimalSeparator format;
     GroupSeparator := GroupSeparator format;
     ExponentSeparator := ExponentSeparator format;
     MinusSign := MinusSign format;
     Infinity := Infinity format;
     NaN := NaN format;
     Percent := Percent format;
     PerMille := PerMille format;
     ZeroDigit := ZeroDigit format;
     OptionalDigit := x;
     PatternSeparator := PatternSeparator format |}.

Definition with_PatternSeparator (format : DecimalFormat) (x : rune) : DecimalFormat :=
  {| DecimalSeparator := DecimalSeparator format;
     GroupSeparator := GroupSeparator format;
     ExponentSeparator := ExponentSeparator format;
     MinusSign := MinusSign format;
     Infinity := Infinity format;
     NaN := NaN format;
     Percent := Percent format;
     PerMille := PerMille format;
     ZeroDigit := ZeroDigit format;
     OptionalDigit := OptionalDigit format;
     PatternSeparator := x |}.

Section DecimalFormatOptions.

(** [fmt.Errorf] with a format that has verbs, and the format that
    [jxpath.NewDecimalFormat] returns: both are left open. *)
Variable Errorf : string -> list bytes -> error.
Variable NewDecimalFormat : DecimalFormat.

(** [updateDecimalFormat] assigns through the pointer and returns an error;
    here the updated format is returned, or the error. *)
Definition updateDecimalFormat (format : DecimalFormat) (key value : bytes)
  : outcome DecimalFormat :=
  if bytes_eqb key (go "infinity") then Ok (with_Infinity format value)
  else if bytes_eqb key (go "NaN") then Ok (with_NaN format value)
  else if bytes_eqb key (go "percent") then Ok (with_Percent format value)
  else if bytes_eqb key (go "per-mille") then Ok (with_PerMille format value)
  else
    let (r, w) := DecodeRuneInString value in
    if (r =? RuneError) || negb (w =? len value)
    then Err (Errorf "invalid value %q for option %q" [value; key])
    else if bytes_eqb key (go "decimal-separator") then Ok (with_DecimalSeparator format r)
    else if bytes_eqb key (go "grouping-separator") then Ok (with_GroupSeparator format r)
    else if bytes_eqb key (go "exponent-separator") then Ok (with_ExponentSeparator format r)
    else if bytes_eqb key (go "minus-sign") then Ok (with_MinusSign format r)
    else if bytes_eqb key (go "zero-digit") then Ok (with_ZeroDigit format r)
    else if bytes_eqb key (go "digit") then Ok (with_OptionalDigit format r)
    else if bytes_eqb key (go "pattern-separator") then Ok (with_PatternSeparator format r)
    else Err (Errorf "unknown option %q" [key]).

(** The loop of [newDecimalFormat] over [opts.MapKeys()]: the map is the
    list of its entries in the order the keys come in, which Go leaves
    unspecified. *)
Fixpoint newDecimalFormat_loop (format : DecimalFormat) (opts : list (Value * Value))
  : outcome DecimalFormat :=
  match opts with
  | [] => Ok format
  | (key, value) :: rest =>
      match AsString key with
      | None => Err "decimal format options must be a map of strings to strings"
      | Some k =>
          match AsString value with
          | None => Err "decimal format options must be a map of strings to strings"
          | Some v =>
              outcome_bind (updateDecimalFormat format k v)
                (fun format => newDecimalFormat_loop format rest)
          end
      end
  end.

Definition newDecimalFormat (opts : list (Value * Value)) : outcome DecimalFormat :=
  newDecimalFormat_loop NewDecimalFormat opts.

End DecimalFormatOptions.

(** The options whose value must be a single character. *)
Definition rune_options : list bytes :=
  [go "decimal-separator"; go "grouping-separator"; go "exponent-separator";
   go "minus-sign"; go "zero-digit"; go "digit"; go "pattern-separator"].

(** The options whose value is taken as it is. *)
Definition string_options : list bytes :=
  [go "infinity"; go "NaN"; go "percent"; go "per-mille"].

(** Whether [value] is one whole rune other than U+FFFD, the test of
    [updateDecimalFormat] read through the rune count. *)
Definition one_rune (value : bytes) : bool :=
  (RuneCountInString value =? 1) && negb (fst (DecodeRuneInString value) =? RuneError).

(** A format and two maps of options to run [newDecimalFormat] on. *)
Definition sample_format : DecimalFormat :=
  {| DecimalSeparator := 46; GroupSeparator := 44; ExponentSeparator := 101;
     MinusSign := 45; Infinity := go "Infinity"; NaN := go "NaN";
     Percent := go "%"; PerMille := ["226"%char; "128"%char; "176"%char];
     ZeroDigit := 48; OptionalDigit := 35; PatternSeparator := 59 |}.

Definition sample_options : list (Value * Value) :=
  [(Str (go "infinity"), Str (go "inf")); (Str (go "digit"), Str (go "@"));
   (Str (go "zero-digit"), Str (go "o"))].

(** No run of decimal digits in [s] has more than 18 digits, so that no
    group index read from [s] leaves the int range. *)
Fixpoint short_runs (s : bytes) : bool :=
  match s with
  | [] => true
  | _ :: s' => Nat.leb (List.length (digit_run s)) 18 && short_runs s'
  end.

(** ** Basic facts *)

(** Case analysis on the integer comparisons of the goal. *)
Ltac ltb_cases :=
  repeat match goal with
         | |- context [?a <? ?b] => destruct (Z.ltb_spec a b)
         | |- context [?a =? ?b] => destruct (Z.eqb_spec a b)
         end;
  cbn [orb]; try lia.

Lemma len_nonneg {A : Type} (l : list A) : 0 <= len l.
Proof. unfold len. lia. Qed.

Lemma len_app {A : Type} (l1 l2 : list A) : len (l1 ++ l2) = len l1 + len l2.
Proof. unfold len. rewrite length_app. lia. Qed.

Lemma len_cons {A : Type} (a : A) (l : list A) : len (a :: l) = 1 + len l.
Proof. unfold len. simpl List.length. lia. Qed.

Lemma bind_result_ok {A B : Type} (x : M A) (k : A -> M B) (a : A) :
  result x = Ok a -> result (bind x k) = result (k a).
Proof.
  destruct x as [n o]. simpl. intros ->. unfold result, bind.
  destruct (k a). reflexivity.
Qed.

(** *** The driver on a matcher that yields [ms] *)

Lemma callMatchFunc_yields fn argv ms :
  yields fn argv ms ->
  forall acc, callMatchFunc fn argv acc = (S (List.length ms), Ok (acc ++ ms)).
Proof.
  induction 1 as [call argv Hc | call argv o v st en gs next ms Hc Hm Hs He Hg Hall Hn _ IH];
    intros acc; simpl; rewrite Hc.
  - now rewrite app_nil_r.
  - rewrite Hm, Hs, He, Hg, Hn. simpl. rewrite Hall. simpl.
    rewrite IH. unfold tick. simpl. now rewrite <- app_assoc.
Qed.

Lemma extractMatches_yields fn s ms limit :
  yields fn [DString s] ms ->
  extractMatches fn s limit = (S (List.length ms), Ok (taken limit ms)).
Proof.
  intros H. unfold extractMatches. rewrite (callMatchFunc_yields _ _ _ H).
  simpl. now rewrite Nat.add_0_r.
Qed.

Lemma callMatchFunc_violates fn argv :
  violates fn argv ->
  forall acc, exists n e, callMatchFunc fn argv acc = (n, Err e).
Proof.
  induction 1 as [call argv res Hc Hv Hw | call argv res next Hc Hw _ IH]; intros acc.
  - simpl. rewrite Hc.
    destruct res as [| | b | s | x | l | o | f]; try (do 2 eexists; reflexivity).
    + congruence.
    + destruct (o "match") eqn:Hm; simpl; try (do 2 eexists; reflexivity).
      destruct (o "start") eqn:Hs; simpl; try (do 2 eexists; reflexivity).
      destruct (o "end") eqn:He; simpl; try (do 2 eexists; reflexivity).
      destruct (o "groups") eqn:Hg; simpl; try (do 2 eexists; reflexivity).
      destruct (forallb IsString l) eqn:Hall; simpl; try (do 2 eexists; reflexivity).
      destruct (o "next") eqn:Hn; simpl; try (do 2 eexists; reflexivity).
      exfalso. apply (Hw f). unfold well_formed. do 5 eexists. repeat split; eauto.
  - destruct Hw as (o & v & st & en & gs & -> & Hm & Hs & He & Hg & Hall & Hn).
    simpl. rewrite Hc, Hm, Hs, He, Hg, Hn. simpl. rewrite Hall. simpl.
    destruct (IH (acc ++ [mkMatch v (int_of_float64 st, int_of_float64 en)
                            (map (fun v0 => match AsString v0 with Some s => s | None => [] end) gs)]))
      as (n & e & ->).
    unfold tick. simpl. eauto.
Qed.

Lemma extractMatches_violates fn s limit :
  violates fn [DString s] ->
  exists n e, extractMatches fn s limit = (n, Err e).
Proof.
  intros H. unfold extractMatches.
  destruct (callMatchFunc_violates _ _ H []) as (n & e & ->). simpl. eauto.
Qed.

Lemma int_of_inject_Z (z : Z) : int_of_float64 (inject_Z z) = z.
Proof. unfold int_of_float64. simpl. apply Z.quot_1_r. Qed.

Lemma map_text_of_Str (gs : list bytes) : map text_of (map Str gs) = gs.
Proof. induction gs as [| g gs IH]; simpl; [reflexivity | now rewrite IH]. Qed.

Lemma forallb_IsString_Str (gs : list bytes) : forallb IsString (map Str gs) = true.
Proof. induction gs as [| g gs IH]; simpl; auto. Qed.

Lemma yields_scripted ms : forall argv, yields (scripted ms) argv ms.
Proof.
  induction ms as [| [v [a b] gs] ms IH]; intros argv.
  - now constructor.
  - rewrite <- (int_of_inject_Z a) at 2. rewrite <- (int_of_inject_Z b) at 2.
    rewrite <- (map_text_of_Str gs) at 2.
    simpl scripted.
    eapply yields_next; try reflexivity.
    + apply forallb_IsString_Str.
    + apply IH.
Qed.

(** *** Split: the loop against the reference segments *)

Lemma splitParts_segments ms : forall s pos parts,
  splitParts s ms pos parts = outcome_map (app parts) (segments s pos ms).
Proof.
  induction ms as [| m ms IH]; intros s pos parts; simpl.
  - destruct (slice s pos (len s)); reflexivity.
  - unfold mstart, mend.
    destruct (slice s pos (fst (indexes m))) as [part | e |]; try reflexivity.
    rewrite IH.
    destruct (segments s (snd (indexes m)) ms) as [rest | e |]; simpl; try reflexivity.
    now rewrite <- app_assoc.
Qed.

Lemma Split_matcher_yields split s fn ms limit :
  yields fn [DString s] ms ->
  0 <= Int limit ->
  Split split s (Fn fn) limit
  = (S (List.length ms), outcome_map (truncate limit) (segments s 0 ms)).
Proof.
  intros Hy Hl. unfold Split.
  destruct (Int limit <? 0) eqn:Hneg; [apply Z.ltb_lt in Hneg; lia |].
  rewrite (extractMatches_yields _ _ _ _ Hy).
  replace (taken (-1) ms) with ms by reflexivity.
  unfold lift, bind. rewrite splitParts_segments.
  destruct (segments s 0 ms) as [parts | e |]; simpl;
    rewrite ?Nat.add_0_r; reflexivity.
Qed.

(** ** The driver and the bound (C2) *)

(** C2, as stated, fails: with limit 1 on a matcher with three matches the
    driver makes four capability calls, not one, and so does Contains. *)
Lemma limit_does_not_stop_the_calls :
  calls (extractMatches (scripted commas) (go "a,b,c,d") 1) = 4%nat /\
  result (extractMatches (scripted commas) (go "a,b,c,d") 1)
    = Ok [mkMatch (go ",") (1, 2) []] /\
  calls (Contains (go "a,b,c,d") (Fn (scripted commas))) = 4%nat /\
  ~ (calls (extractMatches (scripted commas) (go "a,b,c,d") 1) <= 1)%nat /\
  ~ (calls (Contains (go "a,b,c,d") (Fn (scripted commas))) <= 1)%nat.
Proof.
  assert (H1 : calls (extractMatches (scripted commas) (go "a,b,c,d") 1) = 4%nat)
    by reflexivity.
  assert (H2 : calls (Contains (go "a,b,c,d") (Fn (scripted commas))) = 4%nat)
    by reflexivity.
  repeat split; try reflexivity; rewrite ?H1, ?H2; lia.
Qed.

(** C2, amended: the bound does not limit invocation.  On a matcher that
    yields [k] well-formed matches and then the end, extractMatches makes
    exactly [k + 1] capability calls whatever the limit and returns the first
    [limit] matches when [0 <= limit < k], all [k] otherwise; Contains drives
    the matcher with no bound, makes [k + 1] calls too and answers whether
    [k > 0], so that a matcher with no match costs one call and gives false. *)
Theorem extractMatches_drains_whatever_the_limit fn s ms limit :
  yields fn [DString s] ms ->
  calls (extractMatches fn s limit) = S (List.length ms) /\
  result (extractMatches fn s limit)
    = Ok (if (limit >=? 0) && (limit <? len ms)
          then firstn (Z.to_nat limit) ms else ms) /\
  calls (Contains s (Fn fn)) = S (List.length ms) /\
  result (Contains s (Fn fn)) = Ok (len ms >? 0) /\
  (ms = [] -> Contains s (Fn fn) = (1%nat, Ok false)).
Proof.
  intros Hy.
  pose proof (extractMatches_yields _ _ _ limit Hy) as He.
  pose proof (extractMatches_yields _ _ _ (-1) Hy) as Hc.
  unfold Contains. rewrite He, Hc. simpl.
  rewrite Nat.add_0_r. repeat split; try reflexivity.
  intros ->. reflexivity.
Qed.

Lemma extractMatches_drains_witness :
  yields (scripted commas) [DString (go "a,b,c,d")] commas /\
  calls (extractMatches (scripted commas) (go "a,b,c,d") 2) = 4%nat.
Proof.
  split; [apply yields_scripted |].
  exact (proj1 (extractMatches_drains_whatever_the_limit
                  (scripted commas) (go "a,b,c,d") commas 2
                  (yields_scripted commas _))).
Defined.

(** ** Contract violations (C4) *)

Lemma missing_groups_violates argv : violates missing_groups argv.
Proof.
  eapply violates_here; [reflexivity | discriminate |].
  intros next (o & v & st & en & gs & Ho & _ & _ & _ & Hg & _).
  injection Ho as <-. discriminate Hg.
Qed.

Lemma missing_groups_later_violates argv : violates missing_groups_later argv.
Proof.
  eapply violates_later with (next := missing_groups); [reflexivity | |].
  - exists (fun key =>
         if String.eqb key "match" then Str (go "a")
         else if String.eqb key "start" then Num (inject_Z 0)
         else if String.eqb key "end" then Num (inject_Z 1)
         else if String.eqb key "groups" then Arr []
         else if String.eqb key "next" then Fn missing_groups
         else Invalid), (go "a"), (inject_Z 0), (inject_Z 1), [].
    repeat split; reflexivity.
  - apply missing_groups_violates.
Qed.

(** C4: when any result along the sequence is present but lacks one of the
    fields match, start, end, groups, next or has it with the wrong type,
    Contains, Split, Match and Replace all return an error (and so no
    output, partial or truncated), whatever the limit and the replacement. *)
Theorem contract_violation_fails_the_operation split s fn :
  violates fn [DString s] ->
  (exists e, result (extractMatches fn s (-1)) = Err e) /\
  (exists e, result (Contains s (Fn fn)) = Err e) /\
  (forall limit, exists e, result (Split split s (Fn fn) limit) = Err e) /\
  (forall limit, exists e, result (Match s fn limit) = Err e) /\
  (forall repl limit, exists e, result (Replace s (Fn fn) repl limit) = Err e).
Proof.
  intros Hv.
  assert (Hx : forall limit, exists n e, extractMatches fn s limit = (n, Err e))
    by (intros limit; now apply extractMatches_violates).
  repeat split.
  - destruct (Hx (-1)) as (n & e & ->). now exists e.
  - unfold Contains. destruct (Hx (-1)) as (n & e & ->). now exists e.
  - intros limit. unfold Split.
    destruct (Int limit <? 0); [eexists; reflexivity |].
    destruct (Hx (-1)) as (n & e & ->). now exists e.
  - intros limit. unfold Match.
    destruct (Int limit <? 0); [eexists; reflexivity |].
    destruct (Hx (if IsSet limit then Int limit else -1)) as (n & e & ->). now exists e.
  - intros repl limit. unfold Replace.
    destruct (Int limit <? 0); [eexists; reflexivity |].
    unfold replaceMatchFunc.
    destruct (Hx (if IsSet limit then Int limit else -1)) as (n & e & ->).
    destruct repl; eexists; reflexivity.
Qed.

Lemma contract_violation_witness :
  violates missing_groups_later [DString (go "aa")] /\
  (exists e, result (Match (go "aa") missing_groups_later unset) = Err e).
Proof.
  split; [apply missing_groups_later_violates |].
  destruct (contract_violation_fails_the_operation (fun _ _ => []) (go "aa")
              missing_groups_later (missing_groups_later_violates _))
    as (_ & _ & _ & Hm & _).
  exact (Hm unset).
Defined.

(** ** Split on a matcher (C5, C6) *)

(** C5: Split on a matcher separator drives the matcher with no bound
    ([k + 1] capability calls for [k] matches, whatever the limit), builds
    the segments [subject[prevEnd:start_i]] and the trailing
    [subject[prevEnd:]], and then keeps the first [limit] segments when a
    limit is set; a limit below 0 is an error, found before any call. *)
Theorem Split_matcher_enumerates_then_truncates split s fn ms limit :
  yields fn [DString s] ms ->
  (Int limit < 0 -> exists e, Split split s (Fn fn) limit = (0%nat, Err e)) /\
  (0 <= Int limit ->
     calls (Split split s (Fn fn) limit) = S (List.length ms) /\
     calls (Split split s (Fn fn) limit) = calls (extractMatches fn s (-1)) /\
     result (extractMatches fn s (-1)) = Ok ms /\
     result (Split split s (Fn fn) limit)
       = outcome_map (fun parts =>
                        if IsSet limit && (Int limit <? len parts)
                        then firstn (Z.to_nat (Int limit)) parts
                        else parts)
                     (segments s 0 ms)).
Proof.
  intros Hy. split.
  - intros Hneg. unfold Split.
    apply Z.ltb_lt in Hneg. rewrite Hneg. eexists. reflexivity.
  - intros Hl. rewrite (Split_matcher_yields split _ _ _ _ Hy Hl).
    rewrite (extractMatches_yields _ _ _ (-1) Hy). repeat split.
Qed.

Lemma Split_matcher_witness :
  yields (scripted commas) [DString (go "a,b,c,d")] commas /\
  result (Split (fun _ _ => []) (go "a,b,c,d") (Fn (scripted commas)) (limit_of 2))
  = Ok [go "a"; go "b"].
Proof.
  split; [apply yields_scripted |].
  destruct (Split_matcher_enumerates_then_truncates (fun _ _ => []) (go "a,b,c,d")
              (scripted commas) commas (limit_of 2) (yields_scripted commas _))
    as [_ H].
  destruct (H ltac:(simpl; lia)) as (_ & _ & _ & ->). reflexivity.
Defined.

(** *** Slices *)

Lemma firstn_plus {A : Type} (n m : nat) : forall l : list A,
  firstn (n + m) l = firstn n l ++ firstn m (skipn n l).
Proof.
  induction n as [| n IH]; intros l; simpl; [reflexivity |].
  destruct l as [| a l]; simpl.
  - now rewrite firstn_nil.
  - now rewrite IH.
Qed.

Lemma slice_ok {A : Type} (s : list A) (a b : Z) :
  0 <= a -> a <= b -> b <= len s -> slice s a b = Ok (sub s a b).
Proof.
  intros Ha Hab Hb. unfold slice.
  destruct (0 <=? a) eqn:E1; [| apply Z.leb_gt in E1; lia].
  destruct (a <=? b) eqn:E2; [| apply Z.leb_gt in E2; lia].
  destruct (b <=? len s) eqn:E3; [| apply Z.leb_gt in E3; lia].
  reflexivity.
Qed.

Lemma sub_from_0 {A : Type} (s : list A) (b : Z) : sub s 0 b = firstn (Z.to_nat b) s.
Proof. unfold sub. now rewrite Z.sub_0_r. Qed.

Lemma sub_all {A : Type} (s : list A) : sub s 0 (len s) = s.
Proof.
  rewrite sub_from_0. unfold len. rewrite Nat2Z.id. apply firstn_all.
Qed.

Lemma sub_adjacent {A : Type} (s : list A) (a b c : Z) :
  0 <= a -> a <= b -> b <= c -> sub s a b ++ sub s b c = sub s a c.
Proof.
  intros Ha Hab Hbc. unfold sub.
  replace (Z.to_nat (c - a)) with (Z.to_nat (b - a) + Z.to_nat (c - b))%nat by lia.
  rewrite firstn_plus, skipn_skipn.
  replace (Z.to_nat (b - a) + Z.to_nat a)%nat with (Z.to_nat b) by lia.
  reflexivity.
Qed.

Lemma sub_length {A : Type} (s : list A) (a b : Z) :
  0 <= a -> a <= b -> b <= len s -> len (sub s a b) = b - a.
Proof.
  intros Ha Hab Hb. unfold sub, len in *.
  rewrite length_firstn, length_skipn. lia.
Qed.

(** Slices of a string whose first [e] bytes are those of [s]. *)
Lemma sub_prefix_head {A : Type} (s t : list A) (a e : Z) :
  0 <= a -> a <= e -> e <= len s ->
  sub (firstn (Z.to_nat e) s ++ t) 0 a = firstn (Z.to_nat a) s.
Proof.
  intros Ha Hae He. rewrite sub_from_0, firstn_app.
  rewrite length_firstn. unfold len in He.
  replace (Z.to_nat a - Nat.min (Z.to_nat e) (List.length s))%nat with 0%nat by lia.
  simpl. rewrite app_nil_r, firstn_firstn.
  now replace (Nat.min (Z.to_nat a) (Z.to_nat e)) with (Z.to_nat a) by lia.
Qed.

Lemma sub_prefix_tail {A : Type} (s t : list A) (b e : Z) :
  0 <= b -> b <= e -> e <= len s ->
  sub (firstn (Z.to_nat e) s ++ t) b (len (firstn (Z.to_nat e) s ++ t))
  = sub s b e ++ t.
Proof.
  intros Hb Hbe He. unfold sub.
  assert (Hl : List.length (firstn (Z.to_nat e) s) = Z.to_nat e)
    by (rewrite length_firstn; unfold len in He; lia).
  rewrite skipn_app, Hl.
  replace (Z.to_nat b - Z.to_nat e)%nat with 0%nat by lia. simpl skipn at 2.
  rewrite firstn_app, length_skipn, Hl.
  unfold len. rewrite length_app, Hl.
  replace (Z.to_nat (Z.of_nat (Z.to_nat e + List.length t) - b) - (Z.to_nat e - Z.to_nat b))%nat
    with (List.length t) by lia.
  rewrite firstn_all. f_equal.
  rewrite firstn_all2 by (rewrite length_skipn, Hl; lia).
  rewrite firstn_skipn_comm.
  now replace (Z.to_nat b + Z.to_nat (e - b))%nat with (Z.to_nat e) by lia.
Qed.

Lemma sub_middle {A : Type} (p r t : list A) :
  sub (p ++ r ++ t) (len p) (len p + len r) = r.
Proof.
  unfold sub, len. rewrite Nat2Z.id.
  replace (Z.to_nat (Z.of_nat (List.length p) + Z.of_nat (List.length r) - Z.of_nat (List.length p)))
    with (List.length r) by lia.
  rewrite skipn_app, skipn_all, Nat.sub_diag. simpl.
  rewrite firstn_app, firstn_all, Nat.sub_diag. simpl. apply app_nil_r.
Qed.

(** *** Matches placed one after the other *)

Lemma forward_le ms : forall pos n, forward pos ms n -> pos <= n.
Proof.
  induction ms as [| m ms IH]; intros pos n H; simpl in H; [assumption |].
  destruct H as (H1 & H2 & H3). apply IH in H3. lia.
Qed.

Lemma forward_snoc ms m : forall pos n,
  forward pos (ms ++ [m]) n <->
  forward pos ms (mstart m) /\ mstart m <= mend m /\ mend m <= n.
Proof.
  induction ms as [| m' ms IH]; intros pos n; simpl.
  - tauto.
  - rewrite IH. tauto.
Qed.

Lemma forward_firstn ms : forall k pos n,
  forward pos ms n -> forward pos (firstn k ms) n.
Proof.
  induction ms as [| m ms IH]; intros k pos n H.
  - now rewrite firstn_nil.
  - destruct k as [| k]; simpl.
    + now apply (forward_le (m :: ms)).
    + simpl in H. destruct H as (H1 & H2 & H3). auto.
Qed.

Lemma forward_taken limit ms pos n : forward pos ms n -> forward pos (taken limit ms) n.
Proof.
  intros H. unfold taken.
  destruct ((limit >=? 0) && (limit <? len ms)); [now apply forward_firstn | assumption].
Qed.

(** *** Segments of well-placed matches *)

Lemma segments_forward s ms : forall pos,
  0 <= pos -> forward pos ms (len s) ->
  exists parts,
    segments s pos ms = Ok parts /\
    List.length parts = S (List.length ms) /\
    rejoin parts (map (matched_text s) ms) = sub s pos (len s).
Proof.
  induction ms as [| m ms IH]; intros pos Hpos Hf; simpl in *.
  - rewrite slice_ok by lia. eexists. repeat split. simpl. apply app_nil_r.
  - destruct Hf as (H1 & H2 & H3).
    pose proof (forward_le _ _ _ H3) as Hle.
    rewrite slice_ok by lia.
    destruct (IH (mend m)) as (rest & -> & Hlen & Hj); [lia | assumption |].
    eexists. repeat split.
    + simpl. now rewrite Hlen.
    + simpl. rewrite Hj. unfold matched_text.
      rewrite (sub_adjacent s (mstart m)) by lia.
      apply sub_adjacent; lia.
Qed.

(** *** The replacement loop, last match first *)

Lemma splice_snoc s n : forall ms rs pos m r,
  List.length ms = List.length rs ->
  forward pos ms (mstart m) -> 0 <= pos -> mstart m <= mend m -> mend m <= n ->
  splice s pos n (ms ++ [m]) (rs ++ [r])
  = splice s pos (mstart m) ms rs ++ r ++ sub s (mend m) n.
Proof.
  induction ms as [| m' ms IH]; intros rs pos m r Hlen Hf Hpos Hm Hn.
  - destruct rs; [| discriminate]. reflexivity.
  - destruct rs as [| r' rs]; [discriminate |]. simpl in *.
    destruct Hf as (H1 & H2 & H3).
    rewrite IH by (try lia; auto). now rewrite <- !app_assoc.
Qed.

Lemma result_replacement repl m f srepl expandable :
  match repl with
  | Str r => Some (None, r, ContainsRune r "$"%char)
  | Fn c => Some (Some c, [], false)
  | _ => None
  end = Some (f, srepl, expandable) ->
  result (replacement f srepl expandable m) = replacement_of repl m.
Proof.
  destruct repl; intros H; try discriminate; injection H as <- <- <-; simpl.
  - now destruct (ContainsRune s "$"%char).
  - reflexivity.
Qed.

Lemma replaceLoop_splice f srepl expandable s : forall ms rs pos e t,
  0 <= pos -> forward pos ms e -> e <= len s ->
  Forall2 (fun m r => result (replacement f srepl expandable m) = Ok r) ms rs ->
  result (replaceLoop f srepl expandable (rev ms) (firstn (Z.to_nat e) s ++ t))
  = Ok (firstn (Z.to_nat pos) s ++ splice s pos e ms rs ++ t).
Proof.
  induction ms as [| m ms IH] using rev_ind; intros rs pos e t Hpos Hf He Hr.
  - inversion Hr; subst. simpl in *. rewrite app_assoc. do 2 f_equal.
    rewrite <- (sub_from_0 s pos), <- (sub_from_0 s e).
    symmetry. apply sub_adjacent; lia.
  - apply Forall2_app_inv_l in Hr as (rs' & rl & Hrs & Hrl & ->).
    inversion Hrl as [| m0 r ? ? Hm Hnil]; subst. inversion Hnil; subst.
    apply forward_snoc in Hf as (Hf & Hse & Hee).
    pose proof (forward_le _ _ _ Hf) as Hps.
    assert (Hcur : len (firstn (Z.to_nat e) s ++ t) = e + len t).
    { rewrite len_app. unfold len at 1. rewrite length_firstn. unfold len in He. lia. }
    pose proof (len_nonneg t) as Ht.
    rewrite rev_app_distr. simpl rev. simpl app. simpl replaceLoop.
    change (fst (indexes m)) with (mstart m). change (snd (indexes m)) with (mend m).
    rewrite (bind_result_ok _ _ _ Hm).
    rewrite (slice_ok _ 0 (mstart m)) by lia.
    rewrite (slice_ok _ (mend m)) by lia.
    rewrite sub_prefix_head by lia.
    rewrite sub_prefix_tail by lia.
    specialize (IH rs' pos (mstart m) (r ++ sub s (mend m) e ++ t) Hpos Hf
                  ltac:(lia) Hrs).
    destruct (replaceLoop f srepl expandable (rev ms)
                (firstn (Z.to_nat (mstart m)) s ++ r ++ sub s (mend m) e ++ t))
      as [n o].
    unfold result in *. simpl in *. rewrite IH.
    rewrite splice_snoc; try assumption; try lia.
    + now rewrite <- !app_assoc.
    + eapply Forall2_length; eassumption.
Qed.

Lemma Replace_matcher_splice s fn repl limit ms rs :
  yields fn [DString s] ms ->
  0 <= Int limit ->
  is_replacement repl = true ->
  forward 0 (taken (max_of limit) ms) (len s) ->
  Forall2 (fun m r => replacement_of repl m = Ok r) (taken (max_of limit) ms) rs ->
  result (Replace s (Fn fn) repl limit)
  = Ok (splice s 0 (len s) (taken (max_of limit) ms) rs).
Proof.
  intros Hy Hl Hrepl Hf Hrs. unfold Replace.
  destruct (Int limit <? 0) eqn:Hneg; [apply Z.ltb_lt in Hneg; lia |].
  fold (max_of limit). unfold replaceMatchFunc.
  destruct (match repl with
            | Str r => Some (None, r, ContainsRune r "$"%char)
            | Fn c => Some (Some c, [], false)
            | _ => None
            end) as [[[f srepl] expandable] |] eqn:Hk;
    [| destruct repl; discriminate].
  rewrite (extractMatches_yields _ _ _ _ Hy).
  rewrite bind_result_ok with (a := taken (max_of limit) ms) by reflexivity.
  pose proof (replaceLoop_splice f srepl expandable s (taken (max_of limit) ms) rs
                0 (len s) []) as H.
  assert (Hs : firstn (Z.to_nat (len s)) s ++ [] = s)
    by (rewrite app_nil_r; unfold len; rewrite Nat2Z.id; apply firstn_all).
  rewrite Hs in H. simpl in H. rewrite app_nil_r in H.
  apply H; try lia; try assumption.
  eapply Forall2_impl; [| exact Hrs]. intros m r Hm. simpl in Hm.
  now rewrite (result_replacement repl m f srepl expandable Hk).
Qed.

(** C6: on a matcher whose matches lie one after the other inside the
    subject, the segments Split returns (no limit), joined again with the
    text each match spans, give back the subject; so they do with the match
    values, when each value is the text its match spans. *)
Theorem Split_rejoin_round_trip split s fn ms :
  yields fn [DString s] ms ->
  forward 0 ms (len s) ->
  exists parts,
    result (Split split s (Fn fn) unset) = Ok parts /\
    List.length parts = S (List.length ms) /\
    rejoin parts (map (matched_text s) ms) = s /\
    (Forall (fun m => value m = matched_text s m) ms ->
     rejoin parts (map value ms) = s).
Proof.
  intros Hy Hf.
  destruct (segments_forward s ms 0 (Z.le_refl 0) Hf) as (parts & Hseg & Hlen & Hj).
  exists parts.
  rewrite (Split_matcher_yields split _ _ _ unset Hy) by (simpl; lia).
  rewrite Hseg. rewrite sub_all in Hj. repeat split; try assumption.
  intros Hval.
  transitivity (rejoin parts (map (matched_text s) ms)); [| exact Hj].
  f_equal. apply map_ext_in. intros m Hin.
  rewrite Forall_forall in Hval. now apply Hval.
Qed.

Lemma Split_rejoin_witness :
  yields (scripted commas) [DString (go "a,b,c,d")] commas /\
  forward 0 commas (len (go "a,b,c,d")) /\
  exists parts,
    result (Split (fun _ _ => []) (go "a,b,c,d") (Fn (scripted commas)) unset)
      = Ok parts /\
    rejoin parts (map (matched_text (go "a,b,c,d")) commas) = go "a,b,c,d".
Proof.
  assert (Hf : forward 0 commas (len (go "a,b,c,d")))
    by (repeat split; vm_compute; discriminate).
  split; [apply yields_scripted |]. split; [exact Hf |].
  destruct (Split_rejoin_round_trip (fun _ _ => []) (go "a,b,c,d") (scripted commas)
              commas (yields_scripted commas _) Hf) as (parts & H1 & _ & H3 & _).
  exists parts. split; assumption.
Defined.

(** ** Replace on a matcher (C1) and the bounds of the slices (C8) *)

Lemma forward_bounds ms : forall pos n,
  0 <= pos -> forward pos ms n ->
  Forall (fun m => 0 <= mstart m /\ mstart m <= mend m /\ mend m <= n) ms.
Proof.
  induction ms as [| m ms IH]; intros pos n Hpos Hf; [constructor |].
  simpl in Hf. destruct Hf as (H1 & H2 & H3).
  pose proof (forward_le _ _ _ H3). constructor; [lia |].
  apply (IH (mend m)); [lia | assumption].
Qed.

(** C1: Replace on a matcher whose (kept) matches lie one after the other
    inside the subject returns [subject[0:start_1] + repl_1 +
    subject[end_1:start_2] + ... + repl_k + subject[end_k:]], each [repl_i]
    being the replacement computed for match [i]; so the first replacement
    starts at offset [start_1] of the output, whatever the lengths of the
    later ones. *)
Theorem Replace_matcher_splices_original_offsets src fn repl limit ms rs :
  yields fn [DString src] ms ->
  0 <= Int limit ->
  is_replacement repl = true ->
  forward 0 (taken (max_of limit) ms) (len src) ->
  Forall2 (fun m r => replacement_of repl m = Ok r) (taken (max_of limit) ms) rs ->
  result (Replace src (Fn fn) repl limit)
    = Ok (splice src 0 (len src) (taken (max_of limit) ms) rs) /\
  (forall m ms' r rs',
     taken (max_of limit) ms = m :: ms' -> rs = r :: rs' ->
     sub (splice src 0 (len src) (taken (max_of limit) ms) rs)
         (mstart m) (mstart m + len r) = r).
Proof.
  intros Hy Hl Hrepl Hf Hrs. split.
  - now apply Replace_matcher_splice.
  - intros m ms' r rs' Hms ->. rewrite Hms in *. simpl.
    simpl in Hf. destruct Hf as (H1 & H2 & H3).
    pose proof (forward_le _ _ _ H3) as H4.
    pose proof (sub_middle (sub src 0 (mstart m)) r
                  (splice src (mend m) (len src) ms' rs')) as H.
    rewrite sub_length, Z.sub_0_r in H by lia. exact H.
Qed.

Lemma Replace_matcher_witness :
  yields (scripted two_spans) [DString (go "abcdefghijklmnopqrst")] two_spans /\
  result (Replace (go "abcdefghijklmnopqrst") (Fn (scripted two_spans))
            (Str (go "<$0$0>")) unset)
  = Ok (go "ab<cdcd>efghij<klkl>mnopqrst").
Proof.
  split; [apply yields_scripted |].
  destruct (Replace_matcher_splices_original_offsets
              (go "abcdefghijklmnopqrst") (scripted two_spans) (Str (go "<$0$0>"))
              unset two_spans [go "<cdcd>"; go "<klkl>"]
              (yields_scripted two_spans _)) as [H _].
  - simpl. lia.
  - reflexivity.
  - repeat split; vm_compute; discriminate.
  - repeat constructor.
  - rewrite H. reflexivity.
Defined.

(** C8, as stated, fails: the driver accepts a record whose span leaves the
    subject, and Split and Replace then slice out of range. *)
Lemma driver_accepts_span_out_of_range :
  result (extractMatches (scripted out_of_range) (go "abc") (-1)) = Ok out_of_range /\
  ~ (0 <= 2 /\ 2 <= 9 /\ 9 <= len (go "abc")) /\
  result (Split (fun _ _ => []) (go "abc") (Fn (scripted out_of_range)) unset) = Panic /\
  result (Replace (go "abc") (Fn (scripted out_of_range)) (Str (go "y")) unset) = Panic.
Proof.
  repeat split; try reflexivity.
  intros (_ & _ & H). vm_compute in H. now apply H.
Qed.

(** C8, amended: the driver does not check offsets; when the records a
    matcher yields lie one after the other inside the subject
    ([0 <= start_1 <= end_1 <= start_2 <= ... <= end_k <= len]), each
    satisfies [0 <= start <= end <= len] and every slice Split and Replace
    take is within bounds: Split returns its segments, and Replace returns
    a string whenever each replacement text is computed. *)
Theorem slices_within_bounds_on_forward_matches split s fn ms :
  yields fn [DString s] ms ->
  forward 0 ms (len s) ->
  Forall (fun m => 0 <= mstart m /\ mstart m <= mend m /\ mend m <= len s) ms /\
  (forall limit, 0 <= Int limit ->
     exists parts, result (Split split s (Fn fn) limit) = Ok parts) /\
  (forall repl limit rs,
     0 <= Int limit -> is_replacement repl = true ->
     Forall2 (fun m r => replacement_of repl m = Ok r) (taken (max_of limit) ms) rs ->
     exists out, result (Replace s (Fn fn) repl limit) = Ok out).
Proof.
  intros Hy Hf. repeat split.
  - apply (forward_bounds ms 0); [lia | assumption].
  - intros limit Hl.
    destruct (segments_forward s ms 0 (Z.le_refl 0) Hf) as (parts & Hseg & _).
    rewrite (Split_matcher_yields split _ _ _ limit Hy Hl), Hseg.
    eexists. reflexivity.
  - intros repl limit rs Hl Hrepl Hrs. eexists.
    apply (Replace_matcher_splice s fn repl limit ms rs); try assumption.
    now apply forward_taken.
Qed.

Lemma slices_within_bounds_witness :
  yields (scripted commas) [DString (go "a,b,c,d")] commas /\
  forward 0 commas (len (go "a,b,c,d")) /\
  exists out,
    result (Replace (go "a,b,c,d") (Fn (scripted commas)) (Str (go "; ")) (limit_of 2))
    = Ok out.
Proof.
  assert (Hf : forward 0 commas (len (go "a,b,c,d")))
    by (repeat split; vm_compute; discriminate).
  split; [apply yields_scripted |]. split; [exact Hf |].
  destruct (slices_within_bounds_on_forward_matches (fun _ _ => []) (go "a,b,c,d")
              (scripted commas) commas (yields_scripted commas _) Hf) as (_ & _ & H).
  apply (H (Str (go "; ")) (limit_of 2) [go "; "; go "; "]).
  - simpl. lia.
  - reflexivity.
  - repeat constructor.
Defined.

(** ** Literal patterns (C7, C10) *)

Lemma HasPrefix_split old : forall s,
  HasPrefix s old = true -> s = old ++ skipn (List.length old) s.
Proof.
  induction old as [| p old IH]; intros s H; [reflexivity |].
  destruct s as [| c s]; [discriminate |]. simpl in H.
  apply andb_true_iff in H as [Hc Hp]. apply Ascii.eqb_eq in Hc. subst c.
  simpl. f_equal. now apply IH.
Qed.

Lemma Index_nil old : Index [] old = if HasPrefix [] old then 0 else -1.
Proof. reflexivity. Qed.

Lemma Index_cons c s old :
  Index (c :: s) old
  = if HasPrefix (c :: s) old then 0
    else if Index s old <? 0 then -1 else Index s old + 1.
Proof. reflexivity. Qed.

Lemma Index_range old : forall s, Index s old = -1 \/ 0 <= Index s old <= len s.
Proof.
  induction s as [| c s IH].
  - rewrite Index_nil. destruct (HasPrefix [] old); [right; unfold len; simpl; lia | now left].
  - rewrite Index_cons, len_cons. pose proof (len_nonneg s).
    destruct (HasPrefix (c :: s) old); [right; lia |].
    destruct (Index s old <? 0) eqn:E; [now left | right].
    apply Z.ltb_ge in E. lia.
Qed.

Lemma Index_found old : forall s,
  0 <= Index s old ->
  s = firstn (Z.to_nat (Index s old)) s ++ old
        ++ skipn (Z.to_nat (Index s old + len old)) s.
Proof.
  induction s as [| c s IH]; intros H.
  - rewrite Index_nil in *. destruct (HasPrefix [] old) eqn:E; [| lia].
    destruct old; [reflexivity | discriminate].
  - rewrite Index_cons in *. destruct (HasPrefix (c :: s) old) eqn:E.
    + apply HasPrefix_split in E. unfold len. simpl Z.add. rewrite Nat2Z.id.
      simpl firstn. exact E.
    + destruct (Index s old <? 0) eqn:El; [lia |]. apply Z.ltb_ge in El.
      replace (Z.to_nat (Index s old + 1)) with (S (Z.to_nat (Index s old))) by lia.
      replace (Z.to_nat (Index s old + 1 + len old))
        with (S (Z.to_nat (Index s old + len old)))
        by (pose proof (len_nonneg old); lia).
      simpl. f_equal. now apply IH.
Qed.

Lemma Index_found_length old s :
  0 <= Index s old -> Index s old + len old <= len s.
Proof.
  intros H. pose proof (Index_found old s H) as E.
  apply (f_equal len) in E. rewrite !len_app in E.
  pose proof (len_nonneg (firstn (Z.to_nat (Index s old)) s)).
  pose proof (len_nonneg (skipn (Z.to_nat (Index s old + len old)) s)).
  destruct (Index_range old s) as [Hn | Hr]; [lia |].
  assert (len (firstn (Z.to_nat (Index s old)) s) = Index s old).
  { unfold len in *. rewrite length_firstn. lia. }
  lia.
Qed.

Lemma Count_loop_nonneg old : forall fuel s, 0 <= Count_loop fuel s old.
Proof.
  induction fuel as [| fuel IH]; intros s; cbn [Count_loop]; [lia |].
  destruct (Index s old =? -1); [lia |].
  specialize (IH (skipn (Z.to_nat (Index s old + len old)) s)). lia.
Qed.

Lemma Count_loop_fuel old :
  old <> [] ->
  forall f1 f2 s,
    (List.length s <= f1)%nat -> (List.length s <= f2)%nat ->
    Count_loop f1 s old = Count_loop f2 s old.
Proof.
  intros Hold.
  assert (Hlen : 1 <= len old).
  { destruct old; [congruence |]. rewrite len_cons. pose proof (len_nonneg old). lia. }
  assert (Hnil : Index [] old = -1) by (destruct old; [congruence | reflexivity]).
  induction f1 as [| f1 IH]; intros f2 s H1 H2.
  - destruct s; [| simpl in H1; lia].
    destruct f2; cbn [Count_loop]; [reflexivity |]. now rewrite Hnil.
  - destruct f2 as [| f2].
    + destruct s; [| simpl in H2; lia]. cbn [Count_loop]. now rewrite Hnil.
    + cbn [Count_loop]. destruct (Index s old =? -1) eqn:E; [reflexivity |].
      apply Z.eqb_neq in E.
      destruct (Index_range old s) as [Hn | Hr]; [congruence |].
      pose proof (Index_found_length old s (proj1 Hr)) as Hfl.
      f_equal. apply IH; rewrite length_skipn; unfold len in *; lia.
Qed.

Lemma Count_found old s :
  old <> [] -> 0 <= Index s old ->
  Count s old = 1 + Count (skipn (Z.to_nat (Index s old + len old)) s) old.
Proof.
  intros Hold Hj.
  assert (Hlen : 1 <= len old).
  { destruct old; [congruence |]. rewrite len_cons. pose proof (len_nonneg old). lia. }
  pose proof (Index_found_length old s Hj) as Hfl.
  unfold Count. destruct (List.length s) as [| k] eqn:Hk.
  - unfold len in *. lia.
  - cbn [Count_loop]. destruct (Index s old =? -1) eqn:E; [apply Z.eqb_eq in E; lia |].
    f_equal. apply Count_loop_fuel; [assumption | |]; rewrite length_skipn; unfold len in *; lia.
Qed.

Lemma bytes_eqb_eq a b : bytes_eqb a b = true <-> a = b.
Proof.
  unfold bytes_eqb. destruct (list_eq_dec ascii_dec a b); split; congruence.
Qed.

Lemma strings_Replace_none s old new n :
  Index s old = -1 -> strings_Replace s old new n = s.
Proof.
  intros H. unfold strings_Replace.
  destruct (bytes_eqb old new || (n =? 0)); [reflexivity |].
  unfold Count. destruct (List.length s); cbn [Count_loop]; [reflexivity |].
  rewrite H. reflexivity.
Qed.

Lemma strings_Replace_zero s old new : strings_Replace s old new 0 = s.
Proof. unfold strings_Replace. now rewrite orb_true_r. Qed.

Lemma strings_Replace_step s old new n :
  old <> [] -> n <> 0 -> 0 <= Index s old ->
  strings_Replace s old new n
  = firstn (Z.to_nat (Index s old)) s ++ new
      ++ strings_Replace (skipn (Z.to_nat (Index s old + len old)) s) old new (n - 1).
Proof.
  intros Hold Hn Hj. unfold strings_Replace.
  destruct (bytes_eqb old new) eqn:Eon; cbn [orb].
  - apply bytes_eqb_eq in Eon. subst new. now apply Index_found.
  - rewrite (Count_found old s Hold Hj).
    set (rest := skipn (Z.to_nat (Index s old + len old)) s).
    pose proof (Count_loop_nonneg old (List.length rest) rest) as Hm'.
    fold (Count rest old) in Hm'.
    set (m' := Count rest old) in *.
    set (k := if (n <? 0) || (1 + m' <? n) then 1 + m' else n).
    assert (Hk : 1 <= k) by (unfold k; ltb_cases).
    destruct (Z.eqb_spec n 0) as [| _]; [lia |].
    destruct (Z.eqb_spec (1 + m') 0) as [| _]; [lia |].
    replace (Z.to_nat k) with (S (Z.to_nat (k - 1))) by lia.
    cbn [Replace_loop]. fold rest. do 2 f_equal.
    destruct (Z.eqb_spec (n - 1) 0) as [En1 | En1].
    + replace (k - 1) with 0 by (unfold k; ltb_cases). reflexivity.
    + destruct (Z.eqb_spec m' 0) as [Em0 | Em0].
      * replace (k - 1) with 0 by (unfold k; ltb_cases). reflexivity.
      * do 2 f_equal. unfold k. ltb_cases.
Qed.

Lemma Index_leftmost old : forall s i,
  0 <= i < Index s old -> HasPrefix (skipn (Z.to_nat i) s) old = false.
Proof.
  induction s as [| c s IH]; intros i Hi.
  - rewrite Index_nil in Hi. destruct (HasPrefix [] old); lia.
  - rewrite Index_cons in Hi. destruct (HasPrefix (c :: s) old) eqn:E; [lia |].
    destruct (Z.ltb_spec (Index s old) 0); [lia |].
    destruct (Z.eq_dec i 0) as [-> | Hne]; [exact E |].
    replace (Z.to_nat i) with (S (Z.to_nat (i - 1))) by lia.
    simpl skipn. apply IH. lia.
Qed.

Lemma Index_none old : forall s i,
  Index s old = -1 -> HasPrefix (skipn i s) old = false.
Proof.
  induction s as [| c s IH]; intros i H.
  - rewrite Index_nil in H. rewrite skipn_nil.
    destruct (HasPrefix [] old); [discriminate | reflexivity].
  - rewrite Index_cons in H. destruct (HasPrefix (c :: s) old) eqn:E; [discriminate |].
    destruct i as [| i]; [exact E |]. simpl skipn. apply IH.
    destruct (Index_range old s) as [Hn | Hr]; [assumption |].
    destruct (Z.ltb_spec (Index s old) 0); lia.
Qed.

(** C7: Replace with a literal pattern.  The empty pattern is an error, and
    so is a Callable replacement; otherwise the result is that of
    [strings.Replace] with the limit ([-1] when none is given), which
    substitutes from left to right.  For every text [s] and every bound
    [n]: nothing is replaced when the bound is 0 or the pattern does not
    occur, else the result is the text before the leftmost occurrence, the
    replacement, and the substitution of the rest under the bound less one.
    A negative bound stays negative and so never runs out: with no limit
    every occurrence is replaced.  [Replace("aaa","a","b",2) = "bba"]. *)
Theorem Replace_literal_pattern src pat repl new limit :
  0 <= Int limit ->
  Replace (go "aaa") (Str (go "a")) (Str (go "b")) (limit_of 2) = (0%nat, Ok (go "bba")) /\
  Replace (go "aaa") (Str (go "a")) (Str (go "b")) unset = (0%nat, Ok (go "bbb")) /\
  (exists e, Replace src (Str []) repl limit = (0%nat, Err e)) /\
  (forall f, exists e, Replace src (Str pat) (Fn f) limit = (0%nat, Err e)) /\
  (pat <> [] ->
   Replace src (Str pat) (Str new) limit
     = (0%nat, Ok (strings_Replace src pat new (if IsSet limit then Int limit else -1))) /\
   forall s n,
     (n = 0 -> strings_Replace s pat new n = s) /\
     (Index s pat = -1 ->
        strings_Replace s pat new n = s /\
        forall i, HasPrefix (skipn i s) pat = false) /\
     (n <> 0 -> 0 <= Index s pat ->
        strings_Replace s pat new n
        = firstn (Z.to_nat (Index s pat)) s ++ new
            ++ strings_Replace (skipn (Z.to_nat (Index s pat + len pat)) s)
                 pat new (n - 1) /\
        s = firstn (Z.to_nat (Index s pat)) s ++ pat
              ++ skipn (Z.to_nat (Index s pat + len pat)) s /\
        forall i, 0 <= i < Index s pat ->
                  HasPrefix (skipn (Z.to_nat i) s) pat = false)).
Proof.
  intros Hl.
  assert (Hneg : (Int limit <? 0) = false) by (apply Z.ltb_ge; lia).
  split; [reflexivity |]. split; [reflexivity |].
  split; [| split].
  - unfold Replace. rewrite Hneg. eexists. reflexivity.
  - intros f. unfold Replace. rewrite Hneg. destruct pat; eexists; reflexivity.
  - intros Hpat. split.
    + unfold Replace. rewrite Hneg. destruct pat; [congruence | reflexivity].
    + intros s n. repeat split.
      * intros ->. apply strings_Replace_zero.
      * now apply strings_Replace_none.
      * intros i. now apply Index_none.
      * now apply strings_Replace_step.
      * now apply Index_found.
      * now apply Index_leftmost.
Qed.

Lemma Replace_literal_witness :
  0 <= Int (limit_of 2) /\
  Replace (go "aaa") (Str (go "a")) (Str (go "b")) (limit_of 2) = (0%nat, Ok (go "bba")).
Proof.
  split; [simpl; lia |].
  exact (proj1 (Replace_literal_pattern (go "aaa") (go "a") (Str (go "b")) (go "b")
                  (limit_of 2) ltac:(simpl; lia))).
Defined.

(** C10: Contains with the empty string as literal pattern is true for
    every subject, the empty one included, and calls no capability. *)
Theorem Contains_empty_literal (s : bytes) : Contains s (Str []) = (0%nat, Ok true).
Proof. destruct s; reflexivity. Qed.

(** ** The token expander (C3, C9) *)

Lemma prepend_app p q o : prepend p (prepend q o) = prepend (p ++ q) o.
Proof. destruct o; simpl; now rewrite ?app_assoc. Qed.

Lemma prepend_nil o : prepend [] o = o.
Proof. now destruct o. Qed.

Lemma expand_loop_round fuel s m acc :
  expand_loop (S fuel) s m acc
  = match expand_round s m with
    | Stop o => Some (prepend acc o)
    | Again emit rest => expand_loop fuel rest m (acc ++ emit)
    end.
Proof.
  cbn [expand_loop]. unfold expand_round.
  destruct (IndexRune s "$"%char =? -1); [reflexivity |].
  destruct (skipn (Z.to_nat (IndexRune s "$"%char + 1)) s) as [| c s1].
  - cbn [prepend]. now rewrite app_assoc.
  - destruct ((rune_of c =? rune_of "$"%char) || (rune_of c <? rune_of "0"%char)
              || (rune_of c >? rune_of "9"%char)).
    + now rewrite app_assoc.
    + destruct (rune_of c =? rune_of "0"%char); [now rewrite app_assoc |].
      destruct (expandGroup _ _ _); try reflexivity. now rewrite app_assoc.
Qed.

Lemma IndexRune_range r : forall s, IndexRune s r = -1 \/ 0 <= IndexRune s r < len s.
Proof.
  induction s as [| c s IH]; [now left |].
  cbn [IndexRune]. rewrite len_cons. pose proof (len_nonneg s).
  destruct (byte_eqb c r); [right; lia |].
  destruct (Z.ltb_spec (IndexRune s r) 0); [now left | right; lia].
Qed.

Lemma expand_round_shrinks s m emit rest :
  expand_round s m = Again emit rest -> (List.length rest < List.length s)%nat.
Proof.
  unfold expand_round.
  destruct (Z.eqb_spec (IndexRune s "$"%char) (-1)) as [| Hpos]; [discriminate |].
  destruct (IndexRune_range "$"%char s) as [| Hr]; [contradiction |].
  assert (Hs : (List.length (skipn (Z.to_nat (IndexRune s "$"%char + 1)) s)
                < List.length s)%nat)
    by (rewrite length_skipn; unfold len in Hr; lia).
  destruct (skipn (Z.to_nat (IndexRune s "$"%char + 1)) s) as [| c s1];
    [discriminate |].
  simpl List.length in Hs.
  destruct ((rune_of c =? rune_of "$"%char) || (rune_of c <? rune_of "0"%char)
            || (rune_of c >? rune_of "9"%char)).
  - intros H. injection H as _ <-.
    destruct (rune_of c =? rune_of "$"%char); simpl; lia.
  - destruct (rune_of c =? rune_of "0"%char).
    + intros H. injection H as _ <-. lia.
    + destruct (expandGroup _ _ _); intros H; try discriminate;
        injection H as _ <-; [| lia].
      simpl skipn. rewrite length_skipn. lia.
Qed.

(** The loop ends within [S (length s)] rounds, whatever it started with. *)
Lemma expand_loop_total m : forall fuel s acc,
  (List.length s < fuel)%nat ->
  expand_loop fuel s m acc = Some (prepend acc (expandReplaceString s m)).
Proof.
  induction fuel as [fuel IH] using lt_wf_ind. intros s acc Hlt.
  destruct fuel as [| fuel]; [lia |].
  unfold expandReplaceString. rewrite !expand_loop_round.
  destruct (expand_round s m) as [o | emit rest] eqn:Er.
  - cbn [prepend]. now rewrite prepend_nil.
  - apply expand_round_shrinks in Er.
    rewrite (IH fuel) by lia. rewrite (IH (List.length s)) by lia.
    simpl app. now rewrite prepend_app.
Qed.

Lemma expandReplaceString_round s m :
  expandReplaceString s m
  = match expand_round s m with
    | Stop o => o
    | Again emit rest => prepend emit (expandReplaceString rest m)
    end.
Proof.
  unfold expandReplaceString at 1. rewrite expand_loop_round.
  destruct (expand_round s m) as [o | emit rest] eqn:Er.
  - apply prepend_nil.
  - apply expand_round_shrinks in Er. now rewrite expand_loop_total by lia.
Qed.

Lemma IndexRune_app r rest : forall pre,
  IndexRune pre r = -1 -> IndexRune (pre ++ r :: rest) r = len pre.
Proof.
  induction pre as [| c pre IH]; intros H.
  - simpl. unfold byte_eqb. now rewrite Ascii.eqb_refl.
  - cbn [IndexRune] in H. simpl app. cbn [IndexRune]. rewrite len_cons.
    destruct (byte_eqb c r); [discriminate |].
    destruct (Z.ltb_spec (IndexRune pre r) 0) as [Hlt | Hge].
    + destruct (IndexRune_range r pre) as [Hn | Hr]; [| lia].
      rewrite (IH Hn). pose proof (len_nonneg pre).
      destruct (Z.ltb_spec (len pre) 0); lia.
    + lia.
Qed.

Lemma expand_round_dollar pre rest m :
  IndexRune pre "$"%char = -1 ->
  expand_round (pre ++ "$"%char :: rest) m
  = match rest with
    | [] => Stop (Ok (pre ++ go "$"))
    | c :: s1 =>
        let r := rune_of c in
        if (r =? rune_of "$"%char) || (r <? rune_of "0"%char) || (r >? rune_of "9"%char)
        then Again (pre ++ go "$") (if r =? rune_of "$"%char then s1 else rest)
        else if r =? rune_of "0"%char
        then Again (pre ++ value m) s1
        else
          let indexes := runesToNumbers (digit_run rest) in
          match expandGroup indexes (groups m) (List.length indexes) with
          | Group i text => Again (pre ++ text) (skipn (S i) rest)
          | BadIndex => Stop Panic
          | NoGroup => Again pre s1
          end
    end.
Proof.
  intros H. unfold expand_round. rewrite (IndexRune_app _ rest pre H).
  pose proof (len_nonneg pre) as Hp.
  destruct (Z.eqb_spec (len pre) (-1)); [lia |].
  unfold len. rewrite Nat2Z.id.
  replace (Z.to_nat (Z.of_nat (List.length pre) + 1)) with (List.length pre + 1)%nat by lia.
  rewrite firstn_app, firstn_all, Nat.sub_diag. simpl firstn. rewrite app_nil_r.
  rewrite skipn_app, skipn_all2 by lia.
  replace (List.length pre + 1 - List.length pre)%nat with 1%nat by lia.
  simpl skipn. simpl app. reflexivity.
Qed.

Lemma rune_of_inj a b : rune_of a = rune_of b -> a = b.
Proof.
  unfold rune_of. intros H. apply Nat2Z.inj in H.
  rewrite <- (ascii_nat_embedding a), <- (ascii_nat_embedding b). now rewrite H.
Qed.

Lemma is_digit_range c : is_digit c = true -> 0 <= digit_value c <= 9.
Proof.
  unfold is_digit, digit_value. intros H. apply andb_true_iff in H as [H1 H2].
  apply Z.leb_le in H1, H2. change (rune_of "0"%char) with 48 in *.
  change (rune_of "9"%char) with 57 in *. lia.
Qed.

Lemma is_digit_test c :
  (rune_of c <? rune_of "0"%char) || (rune_of c >? rune_of "9"%char) = negb (is_digit c).
Proof.
  unfold is_digit. rewrite negb_andb, Z.gtb_ltb, <- !Z.ltb_antisym. reflexivity.
Qed.

(** *** Prefix values of a digit run *)

Lemma wrap64_small z : - 2 ^ 63 <= z < 2 ^ 63 -> wrap64 z = z.
Proof. intros H. unfold wrap64. rewrite Z.mod_small; lia. Qed.

Lemma wrap32_small z : - 2 ^ 31 <= z < 2 ^ 31 -> wrap32 z = z.
Proof. intros H. unfold wrap32. rewrite Z.mod_small; lia. Qed.

Lemma decimal_step_bounds : forall l acc,
  Forall (fun c => is_digit c = true) l -> 0 <= acc ->
  acc <= fold_left (fun n c => n * 10 + digit_value c) l acc /\
  fold_left (fun n c => n * 10 + digit_value c) l acc + 1 <= (acc + 1) * 10 ^ len l.
Proof.
  induction l as [| c l IH]; intros acc Hd Hacc.
  - simpl. unfold len. simpl. lia.
  - inversion Hd as [| ? ? Hc Hl]; subst. apply is_digit_range in Hc.
    cbn [fold_left]. rewrite len_cons.
    destruct (IH (acc * 10 + digit_value c) Hl ltac:(lia)) as [H1 H2].
    pose proof (len_nonneg l) as Hn.
    replace (1 + len l) with (Z.succ (len l)) by lia. rewrite Z.pow_succ_r by lia.
    assert (Hpow : 0 < 10 ^ len l) by (apply Z.pow_pos_nonneg; lia).
    split; [lia |]. nia.
Qed.

Lemma wrapped_decimal : forall l acc,
  Forall (fun c => is_digit c = true) l -> 0 <= acc ->
  (acc + 1) * 10 ^ len l <= 2 ^ 63 ->
  fold_left (fun num r => wrap64 (num * 10 + wrap32 (r - rune_of "0"%char)))
            (map rune_of l) acc
  = fold_left (fun n c => n * 10 + digit_value c) l acc.
Proof.
  induction l as [| c l IH]; intros acc Hd Hacc Hb; [reflexivity |].
  inversion Hd as [| ? ? Hc Hl]; subst. apply is_digit_range in Hc.
  rewrite len_cons in Hb. pose proof (len_nonneg l) as Hn.
  replace (1 + len l) with (Z.succ (len l)) in Hb by lia.
  rewrite Z.pow_succ_r in Hb by lia.
  assert (Hpow : 0 < 10 ^ len l) by (apply Z.pow_pos_nonneg; lia).
  cbn [map fold_left]. fold (digit_value c).
  rewrite wrap32_small by lia.
  rewrite wrap64_small by nia.
  apply IH; [assumption | lia | nia].
Qed.

Lemma pow10_18 n : (n <= 18)%nat -> 10 ^ Z.of_nat n <= 2 ^ 63.
Proof.
  intros H. transitivity (10 ^ 18); [| vm_compute; discriminate].
  apply Z.pow_le_mono_r; lia.
Qed.

Lemma Forall_firstn {A : Type} (P : A -> Prop) (n : nat) (l : list A) :
  Forall P l -> Forall P (firstn n l).
Proof.
  intros H. rewrite <- (firstn_skipn n l) in H. now apply Forall_app in H.
Qed.

Lemma runesToNumbers_nth ds i :
  Forall (fun c => is_digit c = true) ds ->
  (List.length ds <= 18)%nat -> (i < List.length ds)%nat ->
  nth i (runesToNumbers (map rune_of ds)) 0 = decimal (firstn (S i) ds).
Proof.
  intros Hd H18 Hi. unfold runesToNumbers. rewrite length_map.
  set (f := fun i0 : nat =>
              fold_left (fun num r => wrap64 (num * 10 + wrap32 (r - rune_of "0"%char)))
                        (firstn (S i0) (map rune_of ds)) 0).
  rewrite (nth_indep _ 0 (f 0%nat)) by (rewrite length_map, length_seq; exact Hi).
  rewrite map_nth, seq_nth by exact Hi. simpl Nat.add. unfold f.
  rewrite firstn_map. unfold decimal. apply wrapped_decimal.
  - apply Forall_firstn. exact Hd.
  - lia.
  - rewrite Z.mul_1_l. apply pow10_18. rewrite length_firstn. lia.
Qed.

Lemma decimal_prefix_bounds d ds k :
  Forall (fun c => is_digit c = true) (d :: ds) -> d <> "0"%char ->
  (List.length (d :: ds) <= 18)%nat -> (1 <= k)%nat ->
  1 <= decimal (firstn k (d :: ds)) < 2 ^ 63.
Proof.
  intros Hd Hnz H18 Hk. destruct k as [| k]; [lia |].
  assert (Hf : Forall (fun c => is_digit c = true) (firstn k ds))
    by (apply Forall_firstn; now inversion Hd).
  inversion Hd as [| ? ? Hc _]; subst. pose proof (is_digit_range d Hc) as Hr.
  assert (Hd1 : 1 <= digit_value d).
  { destruct (Z.eq_dec (digit_value d) 0) as [E |]; [| lia].
    exfalso. apply Hnz. apply rune_of_inj. unfold digit_value in E. lia. }
  unfold decimal. cbn [firstn fold_left]. rewrite Z.mul_0_l, Z.add_0_l.
  destruct (decimal_step_bounds (firstn k ds) (digit_value d) Hf ltac:(lia)) as [H1 H2].
  split; [lia |].
  assert (Hp : 10 * 10 ^ len (firstn k ds) <= 2 ^ 63).
  { rewrite <- Z.pow_succ_r by apply len_nonneg. unfold len.
    rewrite <- Nat2Z.inj_succ. apply pow10_18.
    rewrite length_firstn. simpl in H18. lia. }
  assert (Hpow : 0 < 10 ^ len (firstn k ds))
    by (apply Z.pow_pos_nonneg; [lia | apply len_nonneg]).
  nia.
Qed.

Lemma digit_run_app rest : forall ds,
  Forall (fun c => is_digit c = true) ds -> starts_with_digit rest = false ->
  digit_run (ds ++ rest) = map rune_of ds.
Proof.
  intros ds Hd Hrest. induction ds as [| c ds IH]; simpl.
  - destruct rest as [| c rest]; [reflexivity |]. simpl in Hrest |- *.
    now rewrite is_digit_test, Hrest.
  - inversion Hd as [| ? ? Hc Hl]; subst.
    rewrite is_digit_test, Hc. simpl. now rewrite IH.
Qed.

Lemma runesToNumbers_length runes :
  List.length (runesToNumbers runes) = List.length runes.
Proof. unfold runesToNumbers. now rewrite length_map, length_seq. Qed.

Lemma expandGroup_found indexes groups : forall n i,
  (i < n)%nat ->
  0 <= wrap64 (nth i indexes 0 - 1) < len groups ->
  (forall j, (i < j < n)%nat -> len groups <= wrap64 (nth j indexes 0 - 1)) ->
  expandGroup indexes groups n
  = Group i (nth (Z.to_nat (wrap64 (nth i indexes 0 - 1))) groups []).
Proof.
  induction n as [| n IH]; intros i Hi Hv Hmax; [lia |].
  cbn [expandGroup].
  destruct (Nat.eq_dec i n) as [-> | Hne].
  - destruct (Z.ltb_spec (wrap64 (nth n indexes 0 - 1)) (len groups)); [| lia].
    destruct (Z.ltb_spec (wrap64 (nth n indexes 0 - 1)) 0); [lia | reflexivity].
  - pose proof (Hmax n ltac:(lia)).
    destruct (Z.ltb_spec (wrap64 (nth n indexes 0 - 1)) (len groups)); [lia |].
    apply IH; [lia | assumption |]. intros j Hj. apply Hmax. lia.
Qed.

Lemma expandGroup_none indexes groups : forall n,
  (forall j, (j < n)%nat -> len groups <= wrap64 (nth j indexes 0 - 1)) ->
  expandGroup indexes groups n = NoGroup.
Proof.
  induction n as [| n IH]; intros H; [reflexivity |].
  cbn [expandGroup]. pose proof (H n ltac:(lia)).
  destruct (Z.ltb_spec (wrap64 (nth n indexes 0 - 1)) (len groups)); [lia |].
  apply IH. intros j Hj. apply H. lia.
Qed.

(** The round that meets ['$'] followed by a digit run not starting with
    ['0'], of at most 18 digits. *)
Lemma expand_round_digits pre d ds rest m :
  IndexRune pre "$"%char = -1 ->
  Forall (fun c => is_digit c = true) (d :: ds) -> d <> "0"%char ->
  starts_with_digit rest = false ->
  expand_round (pre ++ "$"%char :: (d :: ds) ++ rest) m
  = match expandGroup (runesToNumbers (map rune_of (d :: ds))) (groups m)
            (List.length (d :: ds)) with
    | Group i text => Again (pre ++ text) (skipn (S i) ((d :: ds) ++ rest))
    | BadIndex => Stop Panic
    | NoGroup => Again pre (ds ++ rest)
    end.
Proof.
  intros Hpre Hd Hnz Hrest. rewrite (expand_round_dollar _ _ _ Hpre).
  simpl app at 1. cbv zeta.
  inversion Hd as [| ? ? Hc Hl]; subst.
  pose proof (is_digit_range d Hc) as Hr. unfold digit_value in Hr.
  change (rune_of "0"%char) with 48 in *. change (rune_of "9"%char) with 57.
  change (rune_of "$"%char) with 36.
  destruct (Z.eqb_spec (rune_of d) 36); [lia |].
  destruct (Z.ltb_spec (rune_of d) 48); [lia |].
  rewrite Z.gtb_ltb. destruct (Z.ltb_spec 57 (rune_of d)); [lia |].
  cbn [orb].
  destruct (Z.eqb_spec (rune_of d) 48) as [E |].
  { exfalso. apply Hnz. apply rune_of_inj. exact E. }
  change (d :: ds ++ rest) with ((d :: ds) ++ rest).
  rewrite (digit_run_app rest (d :: ds) Hd Hrest).
  rewrite runesToNumbers_length, length_map. reflexivity.
Qed.

(** C3, as stated, fails where no prefix of the digit run is a valid group
    number: no ['$'] is emitted and the first digit is consumed. *)
Lemma invalid_group_reference_emits_nothing :
  expandReplaceString (go "$1") (mkMatch (go "X") (0, 1) []) = Ok [] /\
  expandReplaceString (go "$1") (mkMatch (go "X") (0, 1) []) <> Ok (go "$1") /\
  expandReplaceString (go "a$12b") (mkMatch (go "X") (0, 1) []) = Ok (go "a2b") /\
  expandReplaceString (go "a$12b") (mkMatch (go "X") (0, 1) []) <> Ok (go "a$12b").
Proof. repeat split; try reflexivity; vm_compute; discriminate. Qed.

(** C3, amended: ['$'] followed by a run of decimal digits that does not
    start with ['0'] (at most 18 digits, so that no prefix value leaves the
    int range) is resolved longest prefix first: for the longest prefix
    whose value [v] satisfies [v - 1 < len(groups)], that many digits are
    consumed and [groups[v - 1]] is emitted; when no prefix is valid,
    nothing is emitted and the ['$'] and the first digit are consumed, the
    other digits being left as ordinary text. *)
Theorem expand_group_reference pre d ds rest m :
  IndexRune pre "$"%char = -1 ->
  Forall (fun c => is_digit c = true) (d :: ds) -> d <> "0"%char ->
  starts_with_digit rest = false ->
  (List.length (d :: ds) <= 18)%nat ->
  (forall k, (1 <= k <= List.length (d :: ds))%nat ->
     decimal (firstn k (d :: ds)) - 1 < len (groups m) ->
     (forall k', (k < k' <= List.length (d :: ds))%nat ->
                 len (groups m) <= decimal (firstn k' (d :: ds)) - 1) ->
     expandReplaceString (pre ++ "$"%char :: (d :: ds) ++ rest) m
     = prepend (pre ++ nth (Z.to_nat (decimal (firstn k (d :: ds)) - 1)) (groups m) [])
               (expandReplaceString (skipn k (d :: ds) ++ rest) m)) /\
  ((forall k, (1 <= k <= List.length (d :: ds))%nat ->
              len (groups m) <= decimal (firstn k (d :: ds)) - 1) ->
   expandReplaceString (pre ++ "$"%char :: (d :: ds) ++ rest) m
   = prepend pre (expandReplaceString (ds ++ rest) m)).
Proof.
  intros Hpre Hd Hnz Hrest H18.
  assert (Hidx : forall j, (j < List.length (d :: ds))%nat ->
            wrap64 (nth j (runesToNumbers (map rune_of (d :: ds))) 0 - 1)
            = decimal (firstn (S j) (d :: ds)) - 1).
  { intros j Hj. rewrite (runesToNumbers_nth _ _ Hd H18 Hj).
    pose proof (decimal_prefix_bounds d ds (S j) Hd Hnz H18 ltac:(lia)).
    apply wrap64_small. lia. }
  split.
  - intros k Hk Hv Hmax. destruct k as [| i]; [lia |].
    pose proof (decimal_prefix_bounds d ds (S i) Hd Hnz H18 ltac:(lia)) as Hb.
    rewrite expandReplaceString_round, (expand_round_digits _ _ _ _ _ Hpre Hd Hnz Hrest).
    rewrite (expandGroup_found _ _ _ i); try lia.
    + rewrite (Hidx i) by lia.
      rewrite skipn_app.
      replace (S i - List.length (d :: ds))%nat with 0%nat by lia. reflexivity.
    + rewrite (Hidx i) by lia. lia.
    + intros j Hj. rewrite (Hidx j) by lia. apply Hmax. lia.
  - intros Hnone.
    rewrite expandReplaceString_round, (expand_round_digits _ _ _ _ _ Hpre Hd Hnz Hrest).
    rewrite expandGroup_none; [reflexivity |].
    intros j Hj. rewrite (Hidx j) by lia. apply Hnone. lia.
Qed.

Lemma expand_group_reference_witness :
  expandReplaceString (go "a$12b") (mkMatch (go "X") (0, 1) [go "P"; go "Q"])
  = prepend (go "aP") (expandReplaceString (go "2b") (mkMatch (go "X") (0, 1) [go "P"; go "Q"])).
Proof.
  refine (proj1 (expand_group_reference (go "a") "1"%char (go "2") (go "b")
                   (mkMatch (go "X") (0, 1) [go "P"; go "Q"]) _ _ _ _ _) 1%nat _ _ _).
  - reflexivity.
  - repeat constructor.
  - discriminate.
  - reflexivity.
  - simpl. lia.
  - simpl. lia.
  - vm_compute. reflexivity.
  - intros k' Hk'. simpl in Hk'. assert (k' = 2%nat) as -> by lia.
    vm_compute. discriminate.
Defined.

(** C9: the tokens other than group references.  Text with no ['$'] is
    copied; ['$$'] gives one ['$'] and takes both characters; ['$0'] gives
    the matched text; ['$'] before a character that is neither a digit nor
    ['$'], or at the end, gives ['$'] and takes nothing else.  The text
    before the token is copied unchanged. *)
Theorem expand_plain_tokens pre rest c m :
  IndexRune pre "$"%char = -1 ->
  expandReplaceString pre m = Ok pre /\
  expandReplaceString (pre ++ go "$") m = Ok (pre ++ go "$") /\
  expandReplaceString (pre ++ go "$$" ++ rest) m
    = prepend (pre ++ go "$") (expandReplaceString rest m) /\
  expandReplaceString (pre ++ go "$0" ++ rest) m
    = prepend (pre ++ value m) (expandReplaceString rest m) /\
  (is_digit c = false -> c <> "$"%char ->
   expandReplaceString (pre ++ "$"%char :: c :: rest) m
     = prepend (pre ++ go "$") (expandReplaceString (c :: rest) m)) /\
  expandReplaceString (go "$0-$1") (mkMatch (go "X") (0, 1) [go "Y"]) = Ok (go "X-Y") /\
  expandReplaceString (go "$$1") m = Ok (go "$1") /\
  expandReplaceString (go "a$") m = Ok (go "a$").
Proof.
  intros Hpre.
  assert (Hplain : forall s, IndexRune s "$"%char = -1 -> expandReplaceString s m = Ok s).
  { intros s Hs. rewrite expandReplaceString_round. unfold expand_round.
    now rewrite Hs. }
  assert (Hdd : forall p r, IndexRune p "$"%char = -1 ->
            expandReplaceString (p ++ go "$$" ++ r) m
            = prepend (p ++ go "$") (expandReplaceString r m)).
  { intros p r Hp. rewrite expandReplaceString_round.
    change (p ++ go "$$" ++ r) with (p ++ "$"%char :: "$"%char :: r).
    now rewrite (expand_round_dollar _ _ _ Hp). }
  assert (Hend : forall p, IndexRune p "$"%char = -1 ->
            expandReplaceString (p ++ go "$") m = Ok (p ++ go "$")).
  { intros p Hp. rewrite expandReplaceString_round.
    change (p ++ go "$") with (p ++ "$"%char :: []).
    now rewrite (expand_round_dollar _ _ _ Hp). }
  split; [| split; [| split; [| split; [| split; [| split; [| split]]]]]].
  - now apply Hplain.
  - now apply Hend.
  - now apply Hdd.
  - rewrite expandReplaceString_round.
    change (pre ++ go "$0" ++ rest) with (pre ++ "$"%char :: "0"%char :: rest).
    now rewrite (expand_round_dollar _ _ _ Hpre).
  - intros Hc Hnd. rewrite expandReplaceString_round, (expand_round_dollar _ _ _ Hpre).
    cbv zeta. rewrite <- orb_assoc, is_digit_test, Hc, orb_true_r.
    destruct (Z.eqb_spec (rune_of c) (rune_of "$"%char)) as [E |]; [| reflexivity].
    apply rune_of_inj in E. contradiction.
  - reflexivity.
  - change (go "$$1") with ([] ++ go "$$" ++ go "1").
    rewrite (Hdd [] (go "1")) by reflexivity. now rewrite Hplain.
  - change (go "a$") with (go "a" ++ go "$"). now rewrite (Hend (go "a")).
Qed.

Lemma expand_plain_tokens_witness :
  IndexRune (go "a-b") "$"%char = -1 /\
  expandReplaceString (go "a-b$$c") (mkMatch (go "X") (0, 1) [])
  = prepend (go "a-b$") (expandReplaceString (go "c") (mkMatch (go "X") (0, 1) [])).
Proof.
  split; [reflexivity |].
  destruct (expand_plain_tokens (go "a-b") (go "c") "x"%char
              (mkMatch (go "X") (0, 1) []) eq_refl) as (_ & _ & H & _).
  exact H.
Defined.

(** * Further properties of string.go *)

(** ** SubstringBefore and SubstringAfter *)

Lemma HasPrefix_app old : forall rest, HasPrefix (old ++ rest) old = true.
Proof.
  induction old as [| p old IH]; intros rest; [now destruct rest |].
  simpl. unfold byte_eqb. now rewrite Ascii.eqb_refl, IH.
Qed.

Lemma sub_to_end {A : Type} (s : list A) (a : Z) :
  0 <= a -> sub s a (len s) = skipn (Z.to_nat a) s.
Proof.
  intros Ha. unfold sub. apply firstn_all2. rewrite length_skipn. unfold len. lia.
Qed.

Lemma Index_occurs old s :
  0 <= Index s old -> HasPrefix (skipn (Z.to_nat (Index s old)) s) old = true.
Proof.
  intros H. pose proof (Index_found old s H) as E.
  destruct (Index_range old s) as [Hn | Hr]; [lia |].
  rewrite E at 2. rewrite skipn_app.
  assert (Hl : List.length (firstn (Z.to_nat (Index s old)) s) = Z.to_nat (Index s old))
    by (rewrite length_firstn; unfold len in Hr; lia).
  rewrite Hl, Nat.sub_diag, skipn_all2 by lia. simpl. apply HasPrefix_app.
Qed.

(** X1: SubstringBefore and SubstringAfter never slice out of range.  When
    [substr] occurs in [s] they cut [s] around its leftmost occurrence
    ([s = before ++ substr ++ after], no occurrence starting inside
    [before]); when it does not occur, both return [s]. *)
Theorem SubstringBefore_After_decompose (s substr : bytes) :
  exists before after,
    SubstringBefore s substr = Ok before /\
    SubstringAfter s substr = Ok after /\
    ((forall i, HasPrefix (skipn i s) substr = false) -> before = s /\ after = s) /\
    ((exists i, HasPrefix (skipn i s) substr = true) ->
     s = before ++ substr ++ after /\
     forall i, (i < List.length before)%nat -> HasPrefix (skipn i s) substr = false).
Proof.
  unfold SubstringBefore, SubstringAfter.
  destruct (Index_range substr s) as [Hn | Hr].
  - rewrite Hn. simpl. exists s, s. repeat split; try reflexivity.
    + destruct H as [i Hi]. rewrite (Index_none substr s i Hn) in Hi. discriminate.
    + intros i _. now apply Index_none.
  - pose proof (Index_found_length substr s (proj1 Hr)) as Hfl.
    pose proof (len_nonneg substr) as Hs.
    destruct (Z.geb_spec (Index s substr) 0) as [_ | ?]; [| lia].
    rewrite !slice_ok by lia.
    rewrite sub_from_0, sub_to_end by lia.
    eexists. eexists. split; [reflexivity |]. split; [reflexivity |]. split.
    + intros Hnone. pose proof (Index_occurs substr s (proj1 Hr)) as Ho.
      rewrite Hnone in Ho. discriminate.
    + intros _. split; [now apply Index_found |].
      intros i Hi. rewrite length_firstn in Hi.
      rewrite <- (Nat2Z.id i). apply Index_leftmost. lia.
Qed.

(** X2: with the empty string as [substr], SubstringBefore gives the empty
    string and SubstringAfter gives [s]; with [s] itself (not empty), both
    give the empty string. *)
Theorem SubstringBefore_After_edges (s : bytes) :
  SubstringBefore s [] = Ok [] /\
  SubstringAfter s [] = Ok s /\
  (s <> [] -> SubstringBefore s s = Ok [] /\ SubstringAfter s s = Ok []).
Proof.
  assert (Hi : forall t, Index (t ++ []) t = 0).
  { intros t. destruct t; simpl; [reflexivity |].
    unfold byte_eqb. now rewrite Ascii.eqb_refl, HasPrefix_app. }
  pose proof (len_nonneg s) as Hl.
  unfold SubstringBefore, SubstringAfter. split; [| split].
  - assert (E : Index s [] = 0) by (destruct s; reflexivity).
    rewrite E. simpl. now rewrite slice_ok by lia.
  - assert (E : Index s [] = 0) by (destruct s; reflexivity).
    rewrite E. change (0 + len (@nil ascii)) with 0. simpl.
    rewrite slice_ok by lia. now rewrite sub_all.
  - intros _. specialize (Hi s). rewrite app_nil_r in Hi. rewrite Hi. simpl.
    rewrite !slice_ok by lia. split; [reflexivity |].
    rewrite sub_to_end by lia.
    unfold len. rewrite Nat2Z.id. now rewrite skipn_all.
Qed.

(** ** Match, and the limit 0 *)





Lemma segments_nonempty s : forall ms pos parts,
  segments s pos ms = Ok parts -> parts <> [].
Proof.
  intros ms pos parts H. destruct ms as [| m ms]; simpl in H.
  - destruct (slice s pos (len s)); congruence.
  - destruct (slice s pos (mstart m)); [| discriminate | discriminate].
    destruct (segments s (mend m) ms); congruence.
Qed.

(** X4: with limit 0 nothing is kept, though the matcher is still driven
    to its end: Match returns no record, Split no segment (when its slices
    are in range), Replace the subject unchanged. *)
Theorem limit_zero_keeps_nothing split s fn ms repl :
  yields fn [DString s] ms -> is_replacement repl = true ->
  Match s fn (limit_of 0) = (S (List.length ms), Ok []) /\
  Split split s (Fn fn) (limit_of 0)
    = (S (List.length ms), outcome_map (fun _ => []) (segments s 0 ms)) /\
  Replace s (Fn fn) repl (limit_of 0) = (S (List.length ms), Ok s).
Proof.
  intros Hy Hrepl.
  assert (Ht : taken 0 ms = []).
  { unfold taken. destruct (Z.ltb_spec 0 (len ms)); simpl; [reflexivity |].
    destruct ms; [reflexivity |]. rewrite len_cons in *. pose proof (len_nonneg ms). lia. }
  split; [| split].
  - unfold Match. simpl. rewrite (extractMatches_yields _ _ _ _ Hy), Ht.
    simpl. now rewrite Nat.add_0_r.
  - rewrite (Split_matcher_yields split _ _ _ _ Hy) by (simpl; lia). f_equal.
    destruct (segments s 0 ms) as [parts | e |] eqn:E; try reflexivity.
    apply segments_nonempty in E. simpl. unfold truncate. simpl.
    destruct parts; [congruence |]. rewrite len_cons. pose proof (len_nonneg parts).
    destruct (Z.ltb_spec 0 (1 + len parts)); [reflexivity | lia].
  - unfold Replace, replaceMatchFunc. simpl.
    rewrite (extractMatches_yields _ _ _ _ Hy), Ht.
    destruct repl; try discriminate; simpl; now rewrite Nat.add_0_r.
Qed.

Lemma limit_zero_witness :
  yields (scripted commas) [DString (go "a,b,c,d")] commas /\
  Replace (go "a,b,c,d") (Fn (scripted commas)) (Str (go ";")) (limit_of 0)
  = (4%nat, Ok (go "a,b,c,d")).
Proof.
  split; [apply yields_scripted |].
  exact (proj2 (proj2 (limit_zero_keeps_nothing (fun _ _ => []) (go "a,b,c,d")
                         (scripted commas) commas (Str (go ";"))
                         (yields_scripted commas _) eq_refl))).
Defined.

(** ** Errors *)

(** X5: an argument error is found before any capability is called: a
    negative limit (Match, Split, Replace), a pattern that is neither a
    string nor a Callable (Contains, Split, Replace), and in Replace with a
    matcher a replacement that is neither. *)
Theorem argument_errors_call_nothing (s : bytes) (limit : OptionalInt) (v : Value) :
  (Int limit < 0 ->
   (forall fn, exists e, Match s fn limit = (0%nat, Err e)) /\
   (forall split sep, exists e, Split split s sep limit = (0%nat, Err e)) /\
   (forall pattern repl, exists e, Replace s pattern repl limit = (0%nat, Err e))) /\
  (is_replacement v = false ->
   (exists e, Contains s v = (0%nat, Err e)) /\
   (forall split, exists e, Split split s v limit = (0%nat, Err e)) /\
   (forall repl, exists e, Replace s v repl limit = (0%nat, Err e)) /\
   (forall fn, exists e, Replace s (Fn fn) v limit = (0%nat, Err e))).
Proof.
  split.
  - intros Hneg. apply Z.ltb_lt in Hneg.
    unfold Match, Split, Replace. rewrite Hneg.
    repeat split; intros; eexists; reflexivity.
  - intros Hv. unfold Contains, Split, Replace, replaceMatchFunc.
    destruct (Int limit <? 0);
      destruct v; try discriminate; repeat split; intros; eexists; reflexivity.
Qed.

Lemma callMatchFunc_breaks fn argv e :
  breaks fn argv e ->
  forall acc, exists n, callMatchFunc fn argv acc = (n, Err e).
Proof.
  induction 1 as [call argv e Hc | call argv res next e Hc Hw _ IH]; intros acc.
  - simpl. rewrite Hc. eexists. reflexivity.
  - destruct Hw as (o & v & st & en & gs & -> & Hm & Hs & He & Hg & Hall & Hn).
    simpl. rewrite Hc, Hm, Hs, He, Hg, Hn. simpl. rewrite Hall. simpl.
    destruct (IH (acc ++ [mkMatch v (int_of_float64 st, int_of_float64 en)
                            (map (fun v0 => match AsString v0 with Some s => s | None => [] end) gs)]))
      as (n & ->).
    unfold tick. simpl. eauto.
Qed.

(** X6: when the capability itself, or one of its continuations reached
    through well-formed results, returns an error, Contains, Split, Match
    and Replace return that very error. *)
Theorem capability_error_is_returned split s fn e :
  breaks fn [DString s] e ->
  result (Contains s (Fn fn)) = Err e /\
  (forall limit, 0 <= Int limit -> result (Split split s (Fn fn) limit) = Err e) /\
  (forall limit, 0 <= Int limit -> result (Match s fn limit) = Err e) /\
  (forall repl limit, 0 <= Int limit -> is_replacement repl = true ->
     result (Replace s (Fn fn) repl limit) = Err e).
Proof.
  intros Hb.
  assert (Hx : forall limit, exists n, extractMatches fn s limit = (n, Err e)).
  { intros limit. unfold extractMatches.
    destruct (callMatchFunc_breaks _ _ _ Hb []) as (n & ->). simpl. eauto. }
  split; [| split; [| split]].
  - unfold Contains. destruct (Hx (-1)) as (n & ->). reflexivity.
  - intros limit Hl. unfold Split. destruct (Z.ltb_spec (Int limit) 0); [lia |].
    destruct (Hx (-1)) as (n & ->). reflexivity.
  - intros limit Hl. unfold Match. destruct (Z.ltb_spec (Int limit) 0); [lia |].
    destruct (Hx (if IsSet limit then Int limit else -1)) as (n & ->). reflexivity.
  - intros repl limit Hl Hrepl. unfold Replace, replaceMatchFunc.
    destruct (Z.ltb_spec (Int limit) 0); [lia |].
    destruct (Hx (if IsSet limit then Int limit else -1)) as (n & ->).
    destruct repl; try discriminate; reflexivity.
Qed.

Lemma capability_error_witness :
  breaks fails_second [DString (go "aa")] "engine stopped" /\
  result (Contains (go "aa") (Fn fails_second)) = Err "engine stopped".
Proof.
  assert (Hb : breaks fails_second [DString (go "aa")] "engine stopped").
  { eapply breaks_later with (next := MkCallable (fun _ => Fails "engine stopped"));
      [reflexivity | | apply breaks_here; reflexivity].
    exists (fun key =>
         if String.eqb key "match" then Str (go "a")
         else if String.eqb key "start" then Num (inject_Z 0)
         else if String.eqb key "end" then Num (inject_Z 1)
         else if String.eqb key "groups" then Arr []
         else if String.eqb key "next" then Fn (MkCallable (fun _ => Fails "engine stopped"))
         else Invalid), (go "a"), (inject_Z 0), (inject_Z 1), [].
    repeat split; reflexivity. }
  split; [exact Hb |].
  exact (proj1 (capability_error_is_returned (fun _ _ => []) (go "aa") fails_second
                  "engine stopped" Hb)).
Defined.

(** ** Replacement by a function *)

Lemma Replace_matcher_unfold src fn repl limit f srepl expandable :
  0 <= Int limit ->
  match repl with
  | Str r => Some (None, r, ContainsRune r "$"%char)
  | Fn c => Some (Some c, [], false)
  | _ => None
  end = Some (f, srepl, expandable) ->
  Replace src (Fn fn) repl limit
  = bind (extractMatches fn src (max_of limit))
         (fun matches => replaceLoop f srepl expandable (rev matches) src).
Proof.
  intros Hl Hk. unfold Replace, replaceMatchFunc.
  destruct (Z.ltb_spec (Int limit) 0); [lia |]. fold (max_of limit).
  now rewrite Hk.
Qed.

Lemma Forall2_In_l {A B : Type} (R : A -> B -> Prop) l l' x :
  Forall2 R l l' -> In x l -> exists y, R x y.
Proof.
  induction 1 as [| a b l l' Hab _ IH]; intros Hin; [contradiction |].
  destruct Hin as [<- | Hin]; [now exists b | now apply IH].
Qed.

Lemma replaceLoop_calls f srepl expandable : forall rms cur out,
  (forall m, In m rms -> exists r, replacement f srepl expandable m = (1%nat, Ok r)) ->
  result (replaceLoop f srepl expandable rms cur) = Ok out ->
  calls (replaceLoop f srepl expandable rms cur) = List.length rms.
Proof.
  induction rms as [| m rms IH]; intros cur out Hall Hres; [reflexivity |].
  destruct (Hall m (or_introl eq_refl)) as [r Hr].
  cbn [replaceLoop] in *. rewrite Hr in *. unfold bind at 1 in Hres. unfold bind at 1.
  unfold lift in *.
  destruct (slice cur 0 (fst (indexes m))) as [h | e |]; simpl in *; try discriminate.
  destruct (slice cur (snd (indexes m)) (len cur)) as [t | e |]; simpl in *;
    try discriminate.
  specialize (IH (h ++ r ++ t)).
  destruct (replaceLoop f srepl expandable rms (h ++ r ++ t)) as [n o].
  simpl in *. f_equal. apply (IH out); [| exact Hres].
  intros m' Hin. apply Hall. now right.
Qed.

(** X7: Replace on a matcher with a replacement function that returns a
    string for each kept match calls the matcher [k + 1] times and the
    function once per kept match, and splices what the function returned
    into the subject. *)
Theorem Replace_function_calls src fn f limit ms rs :
  yields fn [DString src] ms ->
  0 <= Int limit ->
  forward 0 (taken (max_of limit) ms) (len src) ->
  Forall2 (fun m r => Call f [DMap (match_object m)] = (1%nat, Ok (Str r)))
          (taken (max_of limit) ms) rs ->
  Replace src (Fn fn) (Fn f) limit
  = ((S (List.length ms) + List.length (taken (max_of limit) ms))%nat,
     Ok (splice src 0 (len src) (taken (max_of limit) ms) rs)).
Proof.
  intros Hy Hl Hf Hrs.
  assert (Hrep : forall m r, Call f [DMap (match_object m)] = (1%nat, Ok (Str r)) ->
                   replacement (Some f) [] false m = (1%nat, Ok r)).
  { intros m r H. unfold replacement, callReplaceFunc. now rewrite H. }
  assert (Hres : result (Replace src (Fn fn) (Fn f) limit)
                 = Ok (splice src 0 (len src) (taken (max_of limit) ms) rs)).
  { apply Replace_matcher_splice; try assumption; [reflexivity |].
    eapply Forall2_impl; [| exact Hrs]. intros m r H. simpl.
    unfold callReplaceFunc. now rewrite H. }
  rewrite (Replace_matcher_unfold src fn (Fn f) limit (Some f) [] false Hl eq_refl) in *.
  rewrite (extractMatches_yields _ _ _ _ Hy) in *.
  unfold bind in *.
  destruct (replaceLoop (Some f) [] false (rev (taken (max_of limit) ms)) src)
    as [n o] eqn:E.
  simpl in Hres. subst o. f_equal. f_equal.
  change n with (calls (n, Ok (splice src 0 (len src) (taken (max_of limit) ms) rs))).
  rewrite <- E, <- length_rev.
  eapply replaceLoop_calls; [| rewrite E; reflexivity].
  intros m Hin. apply in_rev in Hin.
  destruct (Forall2_In_l _ _ _ _ Hrs Hin) as (r & Hr).
  exists r. now apply Hrep.
Qed.

Lemma Replace_function_witness :
  yields (scripted two_spans) [DString (go "abcdefghijklmnopqrst")] two_spans /\
  Replace (go "abcdefghijklmnopqrst") (Fn (scripted two_spans)) (Fn bracket) unset
  = (5%nat, Ok (go "ab[cd]efghij[kl]mnopqrst")).
Proof.
  split; [apply yields_scripted |].
  rewrite (Replace_function_calls (go "abcdefghijklmnopqrst") (scripted two_spans)
             bracket unset two_spans [go "[cd]"; go "[kl]"]
             (yields_scripted two_spans _)).
  - reflexivity.
  - simpl. lia.
  - repeat split; vm_compute; discriminate.
  - repeat constructor.
Defined.

(** X8: the replacement function is applied to the last kept match first,
    and its failure there (an error of its own, or a result that is not a
    string) ends Replace with that error after this single call, whatever
    the earlier matches are. *)
Theorem Replace_function_fails_on_last_match src fn f limit ms kept m e :
  yields fn [DString src] ms ->
  0 <= Int limit ->
  taken (max_of limit) ms = kept ++ [m] ->
  callReplaceFunc f m = (1%nat, Err e) ->
  Replace src (Fn fn) (Fn f) limit = (S (S (List.length ms)), Err e).
Proof.
  intros Hy Hl Hk Hm.
  rewrite (Replace_matcher_unfold src fn (Fn f) limit (Some f) [] false Hl eq_refl).
  rewrite (extractMatches_yields _ _ _ _ Hy), Hk. cbn [bind].
  rewrite rev_app_distr.
  simpl rev. simpl app. cbn [replaceLoop replacement]. rewrite Hm.
  simpl. f_equal. f_equal. lia.
Qed.

Lemma Replace_function_fails_witness :
  yields (scripted two_spans) [DString (go "abcdefghijklmnopqrst")] two_spans /\
  exists e,
    Replace (go "abcdefghijklmnopqrst") (Fn (scripted two_spans)) (Fn returns_number)
            unset = (4%nat, Err e).
Proof.
  split; [apply yields_scripted |]. eexists.
  apply (Replace_function_fails_on_last_match (go "abcdefghijklmnopqrst")
           (scripted two_spans) returns_number unset two_spans
           [mkMatch (go "cd") (2, 4) []] (mkMatch (go "kl") (10, 12) [])).
  - apply yields_scripted.
  - simpl. lia.
  - reflexivity.
  - reflexivity.
Defined.

(** ** The token expander, further *)

Lemma IndexRune_split r : forall s,
  0 <= IndexRune s r ->
  s = firstn (Z.to_nat (IndexRune s r)) s ++ r :: skipn (Z.to_nat (IndexRune s r + 1)) s /\
  IndexRune (firstn (Z.to_nat (IndexRune s r)) s) r = -1.
Proof.
  induction s as [| c s IH]; intros H; [simpl in H; lia |].
  cbn [IndexRune] in *. destruct (byte_eqb c r) eqn:E.
  - apply Ascii.eqb_eq in E. subst c. simpl. now split.
  - destruct (Z.ltb_spec (IndexRune s r) 0); [lia |].
    destruct (IH ltac:(lia)) as [H1 H2].
    replace (Z.to_nat (IndexRune s r + 1)) with (S (Z.to_nat (IndexRune s r))) by lia.
    replace (Z.to_nat (IndexRune s r + 1 + 1)) with (S (Z.to_nat (IndexRune s r + 1))) by lia.
    cbn [firstn skipn app IndexRune]. rewrite E, H2. split; [now f_equal |].
    reflexivity.
Qed.

Lemma digit_split : forall s,
  exists ds rest,
    s = ds ++ rest /\ Forall (fun c => is_digit c = true) ds /\
    starts_with_digit rest = false.
Proof.
  induction s as [| c s (ds & rest & -> & Hd & Hr)].
  - exists [], []. repeat split. constructor.
  - destruct (is_digit c) eqn:E.
    + exists (c :: ds), rest. repeat split; [now constructor | assumption].
    + exists [], (c :: ds ++ rest). repeat split; [constructor | exact E].
Qed.

Lemma expandGroup_not_bad indexes groups : forall n,
  (forall j, (j < n)%nat -> 0 <= wrap64 (nth j indexes 0 - 1)) ->
  expandGroup indexes groups n <> BadIndex.
Proof.
  induction n as [| n IH]; intros H; [discriminate |].
  cbn [expandGroup]. pose proof (H n ltac:(lia)).
  destruct (Z.ltb_spec (wrap64 (nth n indexes 0 - 1)) (len groups)).
  - destruct (Z.ltb_spec (wrap64 (nth n indexes 0 - 1)) 0); [lia | discriminate].
  - apply IH. intros j Hj. apply H. lia.
Qed.

Lemma expand_round_no_panic_run s m :
  (0 <= IndexRune s "$"%char ->
   (List.length (digit_run (skipn (Z.to_nat (IndexRune s "$"%char + 1)) s)) <= 18)%nat) ->
  expand_round s m <> Stop Panic.
Proof.
  intros Hrun.
  destruct (IndexRune_range "$"%char s) as [Hn | Hr].
  - unfold expand_round. rewrite Hn. discriminate.
  - specialize (Hrun (proj1 Hr)).
    destruct (IndexRune_split "$"%char s (proj1 Hr)) as [Hs Hpre].
    set (pre := firstn (Z.to_nat (IndexRune s "$"%char)) s) in *.
    set (s' := skipn (Z.to_nat (IndexRune s "$"%char + 1)) s) in *.
    rewrite Hs, (expand_round_dollar pre s' m Hpre).
    destruct s' as [| c s1]; [discriminate |]. cbv zeta.
    destruct ((rune_of c =? rune_of "$"%char) || (rune_of c <? rune_of "0"%char)
              || (rune_of c >? rune_of "9"%char)) eqn:Ec; [discriminate |].
    destruct (Z.eqb_spec (rune_of c) (rune_of "0"%char)) as [| Hnz]; [discriminate |].
    apply orb_false_iff in Ec as [Ec Ec3]. apply orb_false_iff in Ec as [_ Ec2].
    assert (Hc : is_digit c = true).
    { unfold is_digit. rewrite Z.gtb_ltb in Ec3.
      apply Z.ltb_ge in Ec2, Ec3. apply andb_true_iff. split; now apply Z.leb_le. }
    destruct (digit_split s1) as (ds & rest & -> & Hd & Hrest).
    assert (Hall : Forall (fun c0 => is_digit c0 = true) (c :: ds)) by now constructor.
    assert (Hne : c <> "0"%char) by (intros ->; now apply Hnz).
    change (c :: ds ++ rest) with ((c :: ds) ++ rest) in *.
    rewrite (digit_run_app rest (c :: ds) Hall Hrest) in *.
    assert (H18 : (List.length (c :: ds) <= 18)%nat) by now rewrite length_map in Hrun.
    rewrite runesToNumbers_length, length_map.
    destruct (expandGroup _ _ _) eqn:Eg; try discriminate.
    exfalso. revert Eg. apply expandGroup_not_bad. intros j Hj.
    rewrite (runesToNumbers_nth _ _ Hall H18 Hj).
    pose proof (decimal_prefix_bounds c ds (S j) Hall Hne H18 ltac:(lia)).
    rewrite wrap64_small; lia.
Qed.

Lemma digit_run_length : forall s, (List.length (digit_run s) <= List.length s)%nat.
Proof.
  induction s as [| c s IH]; [apply Nat.le_refl |].
  cbn [digit_run]. destruct (_ || _); simpl; lia.
Qed.

Lemma short_runs_skipn : forall s k,
  short_runs s = true -> (List.length (digit_run (skipn k s)) <= 18)%nat.
Proof.
  induction s as [| c s IH]; intros k H.
  - rewrite skipn_nil. simpl. lia.
  - cbn [short_runs] in H. apply andb_true_iff in H as [H1 H2].
    destruct k as [| k]; [now apply Nat.leb_le in H1 |]. now apply IH.
Qed.

Lemma short_runs_suffix : forall s k, short_runs s = true -> short_runs (skipn k s) = true.
Proof.
  induction s as [| c s IH]; intros k H; [now rewrite skipn_nil |].
  destruct k as [| k]; [exact H |].
  cbn [short_runs] in H. apply andb_true_iff in H as [_ H2]. now apply IH.
Qed.

(** What a round leaves to the next one is an end piece of the text. *)
Lemma expand_round_suffix s m emit rest :
  expand_round s m = Again emit rest -> exists k, rest = skipn k s.
Proof.
  unfold expand_round.
  destruct (IndexRune s "$"%char =? -1); [discriminate |].
  set (p := Z.to_nat (IndexRune s "$"%char + 1)).
  destruct (skipn p s) as [| c s1] eqn:Es; [discriminate |]. cbv zeta.
  assert (H1 : s1 = skipn (1 + p) s) by (rewrite <- skipn_skipn, Es; reflexivity).
  destruct (_ || _).
  - intros H. injection H as _ <-. destruct (_ =? _); [now exists (1 + p)%nat |].
    exists p. now rewrite Es.
  - destruct (_ =? _); [intros H; injection H as _ <-; now exists (1 + p)%nat |].
    destruct (expandGroup _ _ _) as [i text | |]; intros H; try discriminate;
      injection H as _ <-; [| now exists (1 + p)%nat].
    exists (S i + p)%nat. now rewrite <- skipn_skipn, Es.
Qed.

Lemma expand_round_no_error s m e : expand_round s m <> Stop (Err e).
Proof.
  unfold expand_round.
  destruct (_ =? _); [discriminate |]. destruct (skipn _ s); [discriminate |].
  cbv zeta. destruct (_ || _); [discriminate |]. destruct (_ =? _); [discriminate |].
  destruct (expandGroup _ _ _); discriminate.
Qed.

Lemma expandReplaceString_no_error m : forall s e, expandReplaceString s m <> Err e.
Proof.
  intros s. remember (List.length s) as n eqn:Hn. revert s Hn.
  induction n as [n IH] using lt_wf_ind. intros s -> e.
  rewrite expandReplaceString_round.
  destruct (expand_round s m) as [o | emit rest] eqn:Er.
  - intros ->. now apply (expand_round_no_error s m e).
  - pose proof (expand_round_shrinks _ _ _ _ Er) as Hlt.
    pose proof (IH (List.length rest) Hlt rest eq_refl e) as H.
    destruct (expandReplaceString rest m); cbn [prepend]; congruence.
Qed.

(** A condition that excludes the fault in every round and is handed on to
    the next round gives a result. *)
Lemma expandReplaceString_ok_when (P : bytes -> Prop) m :
  (forall s, P s -> expand_round s m <> Stop Panic) ->
  (forall s emit rest, P s -> expand_round s m = Again emit rest -> P rest) ->
  forall s, P s -> exists out, expandReplaceString s m = Ok out.
Proof.
  intros Hsafe Hnext s. remember (List.length s) as n eqn:Hn. revert s Hn.
  induction n as [n IH] using lt_wf_ind. intros s -> HP.
  rewrite expandReplaceString_round.
  destruct (expand_round s m) as [o | emit rest] eqn:Er.
  - destruct o as [out | e |].
    + now exists out.
    + now destruct (expand_round_no_error s m e).
    + now destruct (Hsafe s HP).
  - pose proof (expand_round_shrinks _ _ _ _ Er) as Hlt.
    destruct (IH (List.length rest) Hlt rest eq_refl (Hnext _ _ _ HP Er)) as [out ->].
    eexists. reflexivity.
Qed.

(** X9: the loop of expandReplaceString always ends: within [len s + 1]
    rounds it has produced its outcome, the same for every larger number of
    rounds allowed and whatever was accumulated before.  That outcome is
    never an error.  It is a string, whatever the match and its groups, when
    no run of digits in [s] is longer than 18 digits (so that no group
    index leaves the int range), and also when [s] has at most 19 bytes. *)
Theorem expandReplaceString_returns (s : bytes) (m : match_) :
  (forall fuel acc, (List.length s < fuel)%nat ->
     expand_loop fuel s m acc = Some (prepend acc (expandReplaceString s m))) /\
  (forall e, expandReplaceString s m <> Err e) /\
  (short_runs s = true -> exists out, expandReplaceString s m = Ok out) /\
  ((List.length s <= 19)%nat -> exists out, expandReplaceString s m = Ok out).
Proof.
  split; [intros fuel acc Hf; now apply expand_loop_total |].
  split; [apply expandReplaceString_no_error |]. split.
  - apply (expandReplaceString_ok_when (fun s => short_runs s = true)).
    + intros t Ht. apply expand_round_no_panic_run. intros _.
      now apply short_runs_skipn.
    + intros t emit rest Ht Er.
      destruct (expand_round_suffix _ _ _ _ Er) as [k ->].
      now apply short_runs_suffix.
  - apply (expandReplaceString_ok_when (fun s => (List.length s <= 19)%nat)).
    + intros t Ht. apply expand_round_no_panic_run. intros Hpos.
      etransitivity; [apply digit_run_length |]. rewrite length_skipn. lia.
    + intros t emit rest Ht Er. apply expand_round_shrinks in Er. lia.
Qed.

Lemma expandReplaceString_returns_witness :
  exists out,
    expandReplaceString (go "$$$$$$$$$$$$$$$$$$$$$$$$$$$$$$$$$$$$$$$$ <$1$22$0> $3")
      (mkMatch (go "X") (0, 1) [go "P"]) = Ok out.
Proof.
  apply (proj1 (proj2 (proj2 (expandReplaceString_returns
           (go "$$$$$$$$$$$$$$$$$$$$$$$$$$$$$$$$$$$$$$$$ <$1$22$0> $3")
           (mkMatch (go "X") (0, 1) [go "P"]))))).
  reflexivity.
Defined.

(** ** Join *)

Lemma rejoin_Join sep : forall parts seps,
  Forall (fun x => x = sep) seps ->
  List.length parts = S (List.length seps) ->
  rejoin parts seps = strings_Join parts sep.
Proof.
  induction parts as [| p parts IH]; intros seps Hs Hl; [discriminate |].
  destruct seps as [| x seps].
  - destruct parts; [| discriminate]. reflexivity.
  - inversion Hs; subst. simpl in Hl. injection Hl as Hl.
    cbn [rejoin]. rewrite (IH seps) by assumption.
    destruct parts as [| q parts]; [discriminate |].
    simpl. now rewrite <- !app_assoc.
Qed.

(** X10: Join undoes Split: when the text every match spans is the
    separator given to Join (and the matches lie one after the other
    inside the subject), joining the segments of Split gives back the
    subject. *)
Theorem Join_Split_round_trip split s fn ms separator :
  yields fn [DString s] ms ->
  forward 0 ms (len s) ->
  Forall (fun m => matched_text s m = String_ separator) ms ->
  exists parts,
    result (Split split s (Fn fn) unset) = Ok parts /\
    Join (Arr (map Str parts)) separator = (0%nat, Ok s).
Proof.
  intros Hy Hf Hsep.
  destruct (segments_forward s ms 0 (Z.le_refl 0) Hf) as (parts & Hseg & Hlen & Hj).
  exists parts. split.
  - rewrite (Split_matcher_yields split _ _ _ unset Hy) by (simpl; lia).
    now rewrite Hseg.
  - unfold Join. cbn [IsArrayOf elements]. rewrite forallb_IsString_Str. cbn [negb].
    change (map (fun v => match AsString v with Some s0 => s0 | None => [] end)
                (map Str parts))
      with (map text_of (map Str parts)).
    rewrite map_text_of_Str. unfold ret. do 2 f_equal.
    rewrite sub_all in Hj. rewrite <- Hj. symmetry. apply rejoin_Join.
    + apply Forall_map. exact Hsep.
    + now rewrite length_map.
Qed.

Lemma Join_Split_witness :
  yields (scripted commas) [DString (go "a,b,c,d")] commas /\
  exists parts,
    result (Split (fun _ _ => []) (go "a,b,c,d") (Fn (scripted commas)) unset) = Ok parts /\
    Join (Arr (map Str parts)) {| String_ := go ","; StringIsSet := true |}
    = (0%nat, Ok (go "a,b,c,d")).
Proof.
  split; [apply yields_scripted |].
  apply (Join_Split_round_trip (fun _ _ => []) (go "a,b,c,d") (scripted commas) commas
           {| String_ := go ","; StringIsSet := true |}).
  - apply yields_scripted.
  - repeat split; vm_compute; discriminate.
  - repeat constructor.
Defined.

(** X11: Join returns a lone string as it is, whatever the separator,
    rejects every other value that is not an array of strings (an array
    with one element that is not a string included), and on an array of
    strings puts the separator between the elements only: nothing for the
    empty array, the element itself for a single one. *)
Theorem Join_edges (separator : OptionalString) :
  (forall s, Join (Str s) separator = (0%nat, Ok s)) /\
  (forall v, AsString v = None -> IsArrayOf v IsString = false ->
             exists e, Join v separator = (0%nat, Err e)) /\
  (forall l1 x l2, IsString x = false ->
             exists e, Join (Arr (l1 ++ x :: l2)) separator = (0%nat, Err e)) /\
  Join (Arr []) separator = (0%nat, Ok []) /\
  (forall s, Join (Arr [Str s]) separator = (0%nat, Ok s)) /\
  (forall s vs, Join (Arr (map Str (s :: vs))) separator
                = (0%nat, Ok (s ++ List.concat (map (fun v => String_ separator ++ v) vs)))).
Proof.
  split; [reflexivity |]. split; [| split; [| split; [| split]]].
  - intros v Hs Ha. unfold Join. rewrite Ha, Hs. eexists. reflexivity.
  - intros l1 x l2 Hx. unfold Join. cbn [IsArrayOf AsString].
    rewrite forallb_app. cbn [forallb]. rewrite Hx, andb_false_r. cbn [negb].
    eexists. reflexivity.
  - reflexivity.
  - intros s. unfold Join. simpl. now rewrite app_nil_r.
  - intros s vs. unfold Join. cbn [IsArrayOf elements].
    rewrite forallb_IsString_Str. cbn [negb].
    change (map (fun v => match AsString v with Some s0 => s0 | None => [] end)
                (map Str (s :: vs)))
      with (map text_of (map Str (s :: vs))).
    now rewrite map_text_of_Str.
Qed.

(** ** runesToNumbers *)

(** X12: runesToNumbers returns one number per rune; for a run of at most
    18 decimal digits the [i]-th number is the value of the first [i + 1]
    digits, so the numbers grow with the prefix. *)
Theorem runesToNumbers_prefix_values (ds : bytes) :
  List.length (runesToNumbers (map rune_of ds)) = List.length ds /\
  (Forall (fun c => is_digit c = true) ds -> (List.length ds <= 18)%nat ->
   forall i, (i < List.length ds)%nat ->
     nth i (runesToNumbers (map rune_of ds)) 0 = decimal (firstn (S i) ds) /\
     0 <= nth i (runesToNumbers (map rune_of ds)) 0 < 10 ^ Z.of_nat (S i) /\
     (forall j, (j < i)%nat ->
        nth j (runesToNumbers (map rune_of ds)) 0
        <= nth i (runesToNumbers (map rune_of ds)) 0)).
Proof.
  split; [now rewrite runesToNumbers_length, length_map |].
  intros Hd H18.
  assert (Hb : forall i, (i < List.length ds)%nat ->
            0 <= decimal (firstn (S i) ds) < 10 ^ Z.of_nat (S i)).
  { intros i Hi. unfold decimal.
    destruct (decimal_step_bounds (firstn (S i) ds) 0
                (Forall_firstn _ _ _ Hd) (Z.le_refl 0)) as [H1 H2].
    unfold len in H2. rewrite length_firstn in H2.
    replace (Nat.min (S i) (List.length ds)) with (S i) in H2 by lia. lia. }
  assert (Hmono : forall i j, (j <= i)%nat -> (i < List.length ds)%nat ->
            decimal (firstn (S j) ds) <= decimal (firstn (S i) ds)).
  { intros i j Hji Hi. unfold decimal.
    replace (S i) with (S j + (i - j))%nat by lia.
    rewrite firstn_plus, fold_left_app.
    apply decimal_step_bounds.
    - apply Forall_firstn. rewrite <- (firstn_skipn (S j) ds) in Hd.
      now apply Forall_app in Hd.
    - apply (Hb j). lia. }
  intros i Hi. rewrite (runesToNumbers_nth _ _ Hd H18 Hi).
  split; [reflexivity |]. split; [now apply Hb |].
  intros j Hj. rewrite (runesToNumbers_nth _ _ Hd H18) by lia.
  apply Hmono; lia.
Qed.

Lemma runesToNumbers_witness :
  nth 2 (runesToNumbers (map rune_of (go "1234"))) 0 = decimal (go "123").
Proof.
  refine (proj1 (proj2 (runesToNumbers_prefix_values (go "1234")) _ _ 2%nat _)).
  - repeat constructor.
  - simpl. lia.
  - simpl. lia.
Defined.

(** ** Runes *)

Lemma first_size b sz lo hi :
  first b = FirstLead sz lo hi -> sz = 2 \/ sz = 3 \/ sz = 4.
Proof.
  unfold first.
  repeat match goal with |- context [if ?c then _ else _] => destruct c end;
    intros H; inversion H; auto.
Qed.

Ltac leb_cases :=
  repeat match goal with
         | |- context [?a <=? ?b] => destruct (Z.leb_spec a b)
         | |- context [?a <? ?b] => destruct (Z.ltb_spec a b)
         end;
  cbn [orb snd fst]; try lia.

Lemma decode_width n s0 s1 s2 s3 :
  1 <= n -> 1 <= snd (decode n s0 s1 s2 s3) <= n.
Proof.
  intros Hn. unfold decode. destruct (first s0) eqn:Hf; cbn [snd]; try lia.
  apply first_size in Hf. leb_cases.
Qed.

(** Decoding reads the length only to compare it with the size the first
    byte announces, and the bytes only below that size. *)
Lemma decode_agree n n' s0 s1 s2 s3 t1 t2 t3 :
  n' <= n -> snd (decode n s0 s1 s2 s3) <= n' ->
  (1 < n' -> t1 = s1) -> (2 < n' -> t2 = s2) -> (3 < n' -> t3 = s3) ->
  decode n' s0 t1 t2 t3 = decode n s0 s1 s2 s3.
Proof.
  intros Hn Hw H1 H2 H3. unfold decode in *.
  destruct (first s0) eqn:Hf; try reflexivity.
  apply first_size in Hf.
  destruct (Z.ltb_spec n' size) as [Hlt | Hge].
  - revert Hw. leb_cases; intros; try reflexivity; cbn [snd] in *; lia.
  - destruct (Z.ltb_spec n size); [lia |].
    rewrite H1 by lia.
    destruct Hf as [-> | [-> | ->]]; cbn [Z.leb Z.compare Pos.compare Pos.compare_cont].
    + reflexivity.
    + rewrite H2 by lia. reflexivity.
    + rewrite H2, H3 by lia. reflexivity.
Qed.

Lemma rune_width_bounds s :
  s <> [] -> (1 <= rune_width s <= List.length s)%nat.
Proof.
  intros Hs. unfold rune_width, DecodeRuneInString.
  destruct s as [| c t]; [congruence |].
  pose proof (decode_width (len (c :: t)) (byte_at (c :: t) 0) (byte_at (c :: t) 1)
                (byte_at (c :: t) 2) (byte_at (c :: t) 3)) as H.
  rewrite len_cons in H. pose proof (len_nonneg t).
  specialize (H ltac:(lia)). rewrite len_cons. unfold len in *.
  simpl List.length. lia.
Qed.

Lemma byte_at_firstn k s i : (i < k)%nat -> byte_at (firstn k s) i = byte_at s i.
Proof.
  intros H. unfold byte_at. f_equal.
  revert k s H. induction i as [| i IH]; intros k s H.
  - destruct k; [lia |]. destruct s; reflexivity.
  - destruct k; [lia |]. destruct s; [reflexivity |]. simpl. apply IH. lia.
Qed.

(** A prefix that holds the whole first rune decodes as the string does. *)
Lemma DecodeRuneInString_firstn k s :
  (rune_width s <= k)%nat ->
  DecodeRuneInString (firstn k s) = DecodeRuneInString s.
Proof.
  intros Hk. destruct s as [| c t]; [now rewrite firstn_nil |].
  pose proof (rune_width_bounds (c :: t) ltac:(congruence)) as Hb.
  destruct k as [| k]; [lia |].
  unfold rune_width in *. unfold DecodeRuneInString in *.
  cbn [firstn].
  assert (Hl : len (c :: firstn k t) = Z.min (Z.of_nat (S k)) (len (c :: t))).
  { unfold len. cbn [List.length]. rewrite length_firstn. lia. }
  change (c :: firstn k t) with (firstn (S k) (c :: t)) at 2 3 4 5.
  apply decode_agree.
  - rewrite Hl. lia.
  - rewrite Hl. set (w := snd (decode _ _ _ _ _)) in *. unfold len. lia.
  - intros H. apply byte_at_firstn. rewrite Hl in H. lia.
  - intros H. apply byte_at_firstn. rewrite Hl in H. lia.
  - intros H. apply byte_at_firstn. rewrite Hl in H. lia.
Qed.

Lemma rune_width_firstn k s :
  (rune_width s <= k)%nat -> rune_width (firstn k s) = rune_width s.
Proof. intros H. unfold rune_width. now rewrite DecodeRuneInString_firstn. Qed.

Lemma runes_loop_fuel : forall f1 f2 s,
  (List.length s <= f1)%nat -> (List.length s <= f2)%nat ->
  runes_loop f1 s = runes_loop f2 s.
Proof.
  induction f1 as [| f1 IH]; intros f2 s H1 H2.
  - destruct s; [| simpl in H1; lia]. now destruct f2.
  - destruct f2 as [| f2]; [destruct s; [reflexivity | simpl in H2; lia] |].
    destruct s as [| c t]; [reflexivity |].
    cbn [runes_loop]. f_equal.
    pose proof (rune_width_bounds (c :: t) ltac:(congruence)).
    apply IH; rewrite length_skipn; simpl List.length in *; lia.
Qed.

Lemma runes_cons s :
  s <> [] -> runes s = firstn (rune_width s) s :: runes (skipn (rune_width s) s).
Proof.
  intros Hs. pose proof (rune_width_bounds s Hs).
  destruct s as [| c t]; [congruence |].
  unfold runes. cbn [List.length runes_loop]. f_equal.
  apply runes_loop_fuel; rewrite ?length_skipn; simpl List.length in *; lia.
Qed.

Lemma RuneCount_runes s : RuneCountInString s = len (runes s).
Proof.
  unfold RuneCountInString, runes. generalize (List.length s) as fuel. intros fuel.
  revert s. induction fuel as [| fuel IH]; intros s; [reflexivity |].
  destruct s as [| c t]; [reflexivity |].
  cbn [RuneCount_loop runes_loop]. now rewrite len_cons, IH.
Qed.

(** Induction over a string one rune at a time. *)
Lemma rune_ind (P : bytes -> Prop) :
  P [] -> (forall s, s <> [] -> P (skipn (rune_width s) s) -> P s) -> forall s, P s.
Proof.
  intros H0 Hs s. remember (List.length s) as n eqn:Hn. revert s Hn.
  induction n as [n IH] using lt_wf_ind. intros s Hn.
  destruct s as [| c t]; [exact H0 |].
  pose proof (rune_width_bounds (c :: t) ltac:(congruence)).
  apply Hs; [congruence |].
  apply (IH (List.length (skipn (rune_width (c :: t)) (c :: t)))); [| reflexivity].
  rewrite length_skipn. lia.
Qed.

Lemma concat_runes s : List.concat (runes s) = s.
Proof.
  induction s as [| s Hs IH] using rune_ind; [reflexivity |].
  rewrite runes_cons by exact Hs. cbn [List.concat]. rewrite IH. apply firstn_skipn.
Qed.

Lemma runes_nonempty s : s <> [] -> 1 <= len (runes s).
Proof.
  intros Hs. rewrite runes_cons by exact Hs. rewrite len_cons.
  pose proof (len_nonneg (runes (skipn (rune_width s) s))). lia.
Qed.

Lemma positionOfNthRune_loop_runes : forall fuel s pos i n,
  (List.length s <= fuel)%nat ->
  positionOfNthRune_loop fuel s pos i n =
  if (i <=? n) && (n - i <? len (runes s))
  then pos + len (List.concat (firstn (Z.to_nat (n - i)) (runes s)))
  else -1.
Proof.
  induction fuel as [| fuel IH]; intros s pos i n Hf.
  - destruct s; [| simpl in Hf; lia]. cbn.
    destruct (Z.leb_spec i n); cbn [andb]; [| reflexivity].
    destruct (Z.ltb_spec (n - i) 0); [lia | reflexivity].
  - destruct s as [| c t].
    + cbn. destruct (Z.leb_spec i n); cbn [andb]; [| reflexivity].
      destruct (Z.ltb_spec (n - i) 0); [lia | reflexivity].
    + set (s := c :: t) in *. assert (Hs : s <> []) by (subst s; congruence).
      pose proof (rune_width_bounds s Hs) as Hw.
      pose proof (runes_nonempty s Hs) as H1.
      unfold s at 1. cbn [positionOfNthRune_loop]. fold s.
      destruct (Z.eqb_spec i n) as [-> | Hne].
      * rewrite Z.leb_refl, Z.sub_diag. cbn [andb].
        destruct (Z.ltb_spec 0 (len (runes s))); [| lia].
        cbn. lia.
      * rewrite IH by (rewrite length_skipn; lia).
        rewrite (runes_cons s Hs). rewrite len_cons.
        destruct (Z.leb_spec (i + 1) n); destruct (Z.leb_spec i n); try lia;
          cbn [andb]; [| reflexivity].
        replace (n - (i + 1)) with (n - i - 1) by lia.
        destruct (Z.ltb_spec (n - i - 1) (len (runes (skipn (rune_width s) s))));
          destruct (Z.ltb_spec (n - i) (1 + len (runes (skipn (rune_width s) s))));
          try lia.
        replace (Z.to_nat (n - i)) with (S (Z.to_nat (n - i - 1))) by lia.
        cbn [firstn List.concat]. rewrite len_app.
        assert (Hx : len (firstn (rune_width s) s) = Z.of_nat (rune_width s))
          by (unfold len; rewrite length_firstn; lia).
        rewrite Hx. lia.
Qed.

Lemma positionOfNthRune_runes s n :
  positionOfNthRune s n =
  if (0 <=? n) && (n <? RuneCountInString s)
  then len (List.concat (firstn (Z.to_nat n) (runes s)))
  else -1.
Proof.
  unfold positionOfNthRune. rewrite positionOfNthRune_loop_runes by lia.
  rewrite Z.sub_0_r, RuneCount_runes. reflexivity.
Qed.

Lemma concat_firstn_prefix (n : nat) (R : list bytes) :
  List.concat (firstn n R) =
  firstn (List.length (List.concat (firstn n R))) (List.concat R).
Proof.
  rewrite <- (firstn_skipn n R) at 3. rewrite concat_app.
  rewrite firstn_app, Nat.sub_diag, firstn_all. cbn [firstn]. now rewrite app_nil_r.
Qed.

Lemma concat_skipn_suffix (n : nat) (R : list bytes) :
  List.concat (skipn n R) =
  skipn (List.length (List.concat (firstn n R))) (List.concat R).
Proof.
  rewrite <- (firstn_skipn n R) at 3. rewrite concat_app.
  rewrite skipn_app, Nat.sub_diag, skipn_all. reflexivity.
Qed.

Lemma runes_skipn : forall n s,
  runes (List.concat (skipn n (runes s))) = skipn n (runes s).
Proof.
  induction n as [| n IH]; intros s.
  - cbn [skipn]. now rewrite concat_runes.
  - destruct s as [| c t]; [reflexivity |].
    rewrite (runes_cons (c :: t)) by congruence. cbn [skipn]. apply IH.
Qed.

Lemma runes_firstn : forall n s,
  runes (List.concat (firstn n (runes s))) = firstn n (runes s).
Proof.
  induction n as [| n IH]; intros s; [reflexivity |].
  destruct s as [| c t]; [reflexivity |].
  set (s := c :: t). assert (Hs : s <> []) by (subst s; congruence).
  pose proof (rune_width_bounds s Hs) as Hw.
  rewrite (runes_cons s Hs). cbn [firstn List.concat].
  set (s' := skipn (rune_width s) s).
  set (y := List.concat (firstn n (runes s'))).
  assert (Hy : y = firstn (List.length y) s').
  { unfold y. rewrite <- (concat_runes s') at 3. apply concat_firstn_prefix. }
  assert (Hxy : firstn (rune_width s) s ++ y = firstn (rune_width s + List.length y) s).
  { rewrite firstn_plus. fold s'. now rewrite <- Hy. }
  assert (Hne : firstn (rune_width s) s ++ y <> []).
  { intros E. apply (f_equal (@List.length _)) in E.
    rewrite length_app, length_firstn in E. simpl in E. lia. }
  rewrite (runes_cons _ Hne).
  assert (Hwidth : rune_width (firstn (rune_width s) s ++ y) = rune_width s).
  { rewrite Hxy. apply rune_width_firstn. lia. }
  rewrite Hwidth.
  assert (Hlen : List.length (firstn (rune_width s) s) = rune_width s).
  { rewrite length_firstn. lia. }
  rewrite firstn_app, skipn_app, Hlen, Nat.sub_diag, firstn_firstn, Nat.min_id.
  cbn [firstn skipn]. rewrite app_nil_r.
  rewrite skipn_all2 by lia. cbn [app].
  unfold y. now rewrite IH.
Qed.

Lemma runes_prefix_le n s : len (List.concat (firstn n (runes s))) <= len s.
Proof.
  rewrite concat_firstn_prefix, concat_runes. unfold len. rewrite length_firstn. lia.
Qed.

Lemma slice_runes_prefix n s :
  slice s 0 (len (List.concat (firstn n (runes s)))) = Ok (List.concat (firstn n (runes s))).
Proof.
  rewrite slice_ok; [| lia | apply len_nonneg | apply runes_prefix_le].
  rewrite sub_from_0. unfold len. rewrite Nat2Z.id. f_equal. symmetry.
  etransitivity; [apply concat_firstn_prefix |]. now rewrite concat_runes.
Qed.

Lemma slice_runes_suffix n s :
  slice s (len (List.concat (firstn n (runes s)))) (len s) =
  Ok (List.concat (skipn n (runes s))).
Proof.
  pose proof (runes_prefix_le n s). pose proof (len_nonneg (List.concat (firstn n (runes s)))).
  rewrite slice_ok by lia. rewrite sub_to_end by lia.
  unfold len. rewrite Nat2Z.id. f_equal. symmetry.
  etransitivity; [apply concat_skipn_suffix |]. now rewrite concat_runes.
Qed.

(** [Substring] in terms of the runes of [s]. *)
Lemma Substring_runes s start length :
  Substring s start length =
  Ok (List.concat
        (firstn (if IsSet length then Z.to_nat (Int length) else List.length (runes s))
           (skipn (Z.to_nat (if start <? 0 then start + RuneCountInString s else start))
              (runes s)))).
Proof.
  unfold Substring. pose proof (len_nonneg (runes s)) as Hn.
  destruct (IsSet length && (Int length <=? 0)) eqn:E1; cbn [orb].
  { apply andb_true_iff in E1 as [E1a E1b]. rewrite E1a. apply Z.leb_le in E1b.
    replace (Z.to_nat (Int length)) with 0%nat by lia. reflexivity. }
  rewrite Z.geb_leb. rewrite (RuneCount_runes s).
  destruct (Z.leb_spec (len (runes s)) start) as [Hge | Hlt].
  { destruct (Z.ltb_spec start 0); [lia |].
    rewrite skipn_all2 by (unfold len in Hge; lia). now rewrite firstn_nil. }
  set (st := if start <? 0 then start + len (runes s) else start).
  assert (Hst : st < len (runes s)) by (subst st; destruct (Z.ltb_spec start 0); lia).
  assert (H1 : (if st >? 0 then slice s (positionOfNthRune s st) (len s) else Ok s) =
               Ok (List.concat (skipn (Z.to_nat st) (runes s)))).
  { rewrite Z.gtb_ltb. destruct (Z.ltb_spec 0 st).
    - rewrite positionOfNthRune_runes, RuneCount_runes.
      destruct (Z.leb_spec 0 st); [| lia]. destruct (Z.ltb_spec st (len (runes s))); [| lia].
      cbn [andb]. apply slice_runes_suffix.
    - replace (Z.to_nat st) with 0%nat by lia. cbn [skipn]. now rewrite concat_runes. }
  rewrite H1. cbn [outcome_bind].
  set (s1 := List.concat (skipn (Z.to_nat st) (runes s))).
  assert (Hr : runes s1 = skipn (Z.to_nat st) (runes s)) by apply runes_skipn.
  rewrite <- Hr. rewrite (RuneCount_runes s1).
  destruct (IsSet length) eqn:Eset; cbn [andb] in *.
  - apply Z.leb_gt in E1.
    destruct (Z.ltb_spec (Int length) (len (runes s1))).
    + rewrite positionOfNthRune_runes, RuneCount_runes.
      destruct (Z.leb_spec 0 (Int length)); [| lia].
      destruct (Z.ltb_spec (Int length) (len (runes s1))); [| lia].
      cbn [andb]. apply slice_runes_prefix.
    + rewrite firstn_all2 by (unfold len in *; lia). now rewrite concat_runes.
  - rewrite firstn_all2 by (rewrite Hr, length_skipn; lia). now rewrite concat_runes.
Qed.

Lemma single_byte_width c t : rune_of c < 0x80 -> rune_width (c :: t) = 1%nat.
Proof.
  intros Hc. unfold rune_width, DecodeRuneInString, decode, byte_at. cbn [nth].
  unfold first. destruct (Z.ltb_spec (rune_of c) 0x80); [reflexivity | lia].
Qed.

Lemma single_byte_runes s : single_byte s = true -> runes s = map (fun c => [c]) s.
Proof.
  induction s as [| c t IH]; intros H; [reflexivity |].
  cbn [single_byte forallb] in H. apply andb_true_iff in H as [Hc Ht].
  apply Z.ltb_lt in Hc.
  rewrite runes_cons by congruence. rewrite single_byte_width by exact Hc.
  cbn [firstn skipn map]. now rewrite IH.
Qed.

Lemma concat_singletons {A : Type} (l : list A) : List.concat (map (fun c => [c]) l) = l.
Proof. induction l as [| a l IH]; [reflexivity |]. cbn. now rewrite IH. Qed.

Lemma single_byte_app s t : single_byte (s ++ t) = single_byte s && single_byte t.
Proof. apply forallb_app. Qed.

Lemma single_byte_firstn n s : single_byte s = true -> single_byte (firstn n s) = true.
Proof.
  intros H. rewrite <- (firstn_skipn n s), single_byte_app in H.
  now apply andb_true_iff in H.
Qed.

Lemma single_byte_repeat ch n :
  single_byte ch = true -> single_byte (List.concat (repeat ch n)) = true.
Proof.
  intros H. induction n as [| n IH]; [reflexivity |].
  cbn [repeat List.concat]. now rewrite single_byte_app, H, IH.
Qed.

Lemma length_concat_repeat (ch : bytes) n :
  List.length (List.concat (repeat ch n)) = (n * List.length ch)%nat.
Proof.
  induction n as [| n IH]; [reflexivity |].
  cbn [repeat List.concat]. rewrite length_app, IH. lia.
Qed.

Lemma abs_small n : - 2 ^ 63 < n < 2 ^ 63 -> abs n = Z.abs n.
Proof.
  intros H. unfold abs. destruct (Z.ltb_spec n 0); [| lia].
  rewrite wrap64_small; lia.
Qed.

(** [Pad] in terms of the runes of the repeated padding. *)
Lemma Pad_runes s width chars ch n :
  ch = match String_ chars with [] => go " " | _ :: _ => String_ chars end ->
  n = Z.to_nat (Z.abs width - RuneCountInString s) ->
  - 2 ^ 63 < width < 2 ^ 63 -> len s < 2 ^ 63 -> (len ch + 1) * Z.abs width < 2 ^ 63 ->
  Pad s width chars =
  Ok (if width <? 0
      then List.concat (firstn n (runes (List.concat (repeat ch n)))) ++ s
      else s ++ List.concat (firstn n (runes (List.concat (repeat ch n))))).
Proof.
  intros Hch Hn Hw Hs Hmul. unfold Pad. rewrite <- Hch.
  rewrite abs_small by exact Hw.
  pose proof (len_nonneg (runes s)) as H0. rewrite (RuneCount_runes s) in *.
  assert (Hc : len (runes s) <= len s).
  { pose proof (runes_prefix_le (List.length (runes s)) s) as H.
    rewrite firstn_all, concat_runes in H.
    clear - s. induction s as [| s Hne IH] using rune_ind; [reflexivity |].
    rewrite runes_cons by exact Hne. rewrite len_cons.
    pose proof (rune_width_bounds s Hne).
    assert (len (skipn (rune_width s) s) = len s - Z.of_nat (rune_width s))
      by (unfold len; rewrite length_skipn; lia).
    lia. }
  rewrite wrap64_small by lia.
  destruct (Z.leb_spec (Z.abs width - len (runes s)) 0) as [Hle | Hgt].
  { replace n with 0%nat by lia. cbn [firstn List.concat app].
    rewrite app_nil_r. now destruct (width <? 0). }
  set (padlen := Z.abs width - len (runes s)) in *.
  assert (Hrep : strings_Repeat ch padlen = Ok (List.concat (repeat ch n))).
  { unfold strings_Repeat. destruct (Z.eqb_spec padlen 0); [lia |].
    destruct (Z.eqb_spec padlen 1) as [E | E].
    - replace n with 1%nat by lia. cbn [repeat List.concat]. now rewrite app_nil_r.
    - destruct (Z.ltb_spec padlen 0); [lia |].
      rewrite Z.geb_leb. pose proof (len_nonneg ch).
      destruct (Z.leb_spec (Z.quot (2 ^ 63 - 1) padlen) (len ch)) as [Hq | Hq];
        [| now rewrite Hn].
      rewrite Z.quot_div_nonneg in Hq by lia.
      assert (Hm : (len ch + 1) * padlen <= (len ch + 1) * Z.abs width)
        by (apply Z.mul_le_mono_nonneg_l; lia).
      assert (len ch + 1 <= (2 ^ 63 - 1) / padlen)
        by (apply Z.div_le_lower_bound; lia).
      lia. }
  rewrite Hrep. cbn [outcome_bind].
  set (padding := List.concat (repeat ch n)).
  match goal with
  | |- outcome_bind ?cut _ = _ =>
      assert (Hcut : cut = Ok (List.concat (firstn n (runes padding))))
  end.
  { rewrite Z.gtb_ltb, RuneCount_runes.
    destruct (Z.ltb_spec padlen (len (runes padding))).
    - rewrite positionOfNthRune_runes, RuneCount_runes.
      destruct (Z.leb_spec 0 padlen); [| lia].
      destruct (Z.ltb_spec padlen (len (runes padding))); [| lia].
      cbn [andb]. replace (Z.to_nat padlen) with n by lia. apply slice_runes_prefix.
    - rewrite firstn_all2 by (unfold len in *; lia). now rewrite concat_runes. }
  rewrite Hcut. cbn [outcome_bind]. now destruct (width <? 0).
Qed.

Lemma RuneCount_prefix n s :
  RuneCountInString (List.concat (firstn n (runes s))) = len (firstn n (runes s)).
Proof. now rewrite RuneCount_runes, runes_firstn. Qed.

Lemma RuneCount_suffix n s :
  RuneCountInString (List.concat (skipn n (runes s))) = len (skipn n (runes s)).
Proof. now rewrite RuneCount_runes, runes_skipn. Qed.

(** X13: for [0 <= n < RuneCountInString s], [positionOfNthRune s n] is a
    byte offset inside [s] that cuts it at a rune boundary: the part before
    the offset holds exactly [n] runes and the part from the offset on holds
    the remaining ones. *)
Theorem positionOfNthRune_cuts_at_rune s n :
  0 <= n < RuneCountInString s ->
  0 <= positionOfNthRune s n < len s /\
  RuneCountInString (sub s 0 (positionOfNthRune s n)) = n /\
  RuneCountInString (sub s (positionOfNthRune s n) (len s)) = RuneCountInString s - n.
Proof.
  intros Hn. rewrite positionOfNthRune_runes.
  destruct (Z.leb_spec 0 n); [| lia].
  destruct (Z.ltb_spec n (RuneCountInString s)); [| lia]. cbn [andb].
  set (p := len (List.concat (firstn (Z.to_nat n) (runes s)))).
  pose proof (slice_runes_prefix (Z.to_nat n) s) as Hp.
  pose proof (slice_runes_suffix (Z.to_nat n) s) as Hq.
  pose proof (runes_prefix_le (Z.to_nat n) s) as Hle.
  pose proof (len_nonneg (List.concat (firstn (Z.to_nat n) (runes s)))) as Hp0.
  fold p in Hp, Hq, Hle, Hp0.
  rewrite slice_ok in Hp by lia. rewrite slice_ok in Hq by lia.
  injection Hp as Hp. injection Hq as Hq.
  assert (Hpre : RuneCountInString (sub s 0 p) = n).
  { rewrite Hp, RuneCount_prefix. unfold len. rewrite length_firstn.
    rewrite RuneCount_runes in *. unfold len in *. lia. }
  assert (Hsuf : RuneCountInString (sub s p (len s)) = RuneCountInString s - n).
  { rewrite Hq, RuneCount_suffix. unfold len. rewrite length_skipn.
    rewrite RuneCount_runes in *. unfold len in *. lia. }
  repeat split; try assumption; try lia.
  destruct (Z.eq_dec p (len s)) as [E | E]; [| lia].
  rewrite E in Hsuf. unfold sub in Hsuf. rewrite Z.sub_diag in Hsuf.
  cbn [Z.to_nat firstn] in Hsuf. cbn in Hsuf. lia.
Qed.

Lemma positionOfNthRune_cuts_witness :
  0 <= positionOfNthRune hello 2 < len hello /\
  RuneCountInString (sub hello 0 (positionOfNthRune hello 2)) = 2 /\
  RuneCountInString (sub hello (positionOfNthRune hello 2) (len hello))
  = RuneCountInString hello - 2.
Proof.
  apply (positionOfNthRune_cuts_at_rune hello 2).
  split; vm_compute; [discriminate | reflexivity].
Defined.

(** X14: [positionOfNthRune s n] is [-1] exactly when [s] has no rune of
    index [n], that is when [n] is negative or at least the rune count. *)
Theorem positionOfNthRune_not_found s n :
  positionOfNthRune s n = -1 <-> n < 0 \/ RuneCountInString s <= n.
Proof.
  rewrite positionOfNthRune_runes.
  destruct (Z.leb_spec 0 n); destruct (Z.ltb_spec n (RuneCountInString s));
    cbn [andb]; split; intros Hx; try lia.
  pose proof (len_nonneg (List.concat (firstn (Z.to_nat n) (runes s)))). lia.
Qed.

(** X15: [Substring] never fails, and read as a sequence of runes its result
    is a window of the runes of [s]: it starts at rune [start] (counted from
    the end when [start] is negative, from the first rune when that is still
    negative) and holds [length] runes, or all that are left when [length]
    is unset or larger. *)
Theorem Substring_selects_runes s start length :
  exists r,
    Substring s start length = Ok r /\
    runes r =
    firstn (if IsSet length then Z.to_nat (Int length) else List.length (runes s))
      (skipn (Z.to_nat (if start <? 0 then start + RuneCountInString s else start))
         (runes s)).
Proof.
  eexists. split; [apply Substring_runes |].
  rewrite <- (runes_skipn _ s). apply runes_firstn.
Qed.

(** X16: for [0 <= i] and [0 <= k], the [k] runes [Substring] takes at rune
    [i] followed by everything it takes from rune [i + k] on are everything
    it takes from rune [i] on; with [i = 0] the two pieces are [s] itself. *)
Theorem Substring_adjacent s i k :
  0 <= i -> 0 <= k ->
  exists a b c,
    Substring s i (limit_of k) = Ok a /\
    Substring s (i + k) unset = Ok b /\
    Substring s i unset = Ok c /\
    a ++ b = c /\ (i = 0 -> c = s).
Proof.
  intros Hi Hk. do 3 eexists.
  split; [apply Substring_runes |]. split; [apply Substring_runes |].
  split; [apply Substring_runes |].
  cbn [IsSet Int limit_of unset].
  destruct (Z.ltb_spec i 0); [lia |]. destruct (Z.ltb_spec (i + k) 0); [lia |].
  split.
  - rewrite <- concat_app.
    rewrite (firstn_all2 (n := List.length (runes s)))
      by (rewrite length_skipn; lia).
    rewrite (firstn_all2 (n := List.length (runes s)))
      by (rewrite length_skipn; lia).
    replace (Z.to_nat (i + k)) with (Z.to_nat k + Z.to_nat i)%nat by lia.
    rewrite <- skipn_skipn. now rewrite firstn_skipn.
  - intros ->. cbn [Z.to_nat skipn]. rewrite firstn_all. apply concat_runes.
Qed.

Lemma Substring_adjacent_witness :
  exists a b c,
    Substring (hello ++ go " world") 2 (limit_of 5) = Ok a /\
    Substring (hello ++ go " world") (2 + 5) unset = Ok b /\
    Substring (hello ++ go " world") 2 unset = Ok c /\
    a ++ b = c /\ (2 = 0 -> c = (hello ++ go " world")).
Proof.
  apply (Substring_adjacent (hello ++ go " world") 2 5); lia.
Defined.



(** X18: on text whose bytes are all single-byte characters, with a width
    and lengths inside the int range, [Pad] returns a text of exactly
    [max (len s) (abs width)] single-byte characters: [s] itself when it
    is long enough, else [s] with the first [abs width - len s]
    characters of the repeated padding before or after it. *)
Theorem Pad_single_byte_width s width chars :
  single_byte s = true -> single_byte (String_ chars) = true ->
  - 2 ^ 63 < width < 2 ^ 63 -> len s < 2 ^ 63 ->
  (len (String_ chars) + 2) * Z.abs width < 2 ^ 63 ->
  exists r,
    Pad s width chars = Ok r /\
    len r = Z.max (len s) (Z.abs width) /\
    single_byte r = true /\
    (Z.abs width <= len s -> r = s).
Proof.
  intros Hs Hc Hw Hlen Hmul.
  set (ch := match String_ chars with [] => go " " | _ :: _ => String_ chars end).
  assert (Hch : single_byte ch = true) by (subst ch; now destruct (String_ chars)).
  assert (Hl : len ch = Z.max 1 (len (String_ chars))).
  { subst ch. destruct (String_ chars) as [| c t]; [reflexivity |].
    rewrite len_cons. pose proof (len_nonneg t). lia. }
  assert (Hcount : RuneCountInString s = len s).
  { rewrite RuneCount_runes, single_byte_runes by exact Hs. unfold len.
    now rewrite length_map. }
  set (n := Z.to_nat (Z.abs width - RuneCountInString s)).
  set (padding := List.concat (repeat ch n)).
  assert (Hp : List.concat (firstn n (runes padding)) = firstn n padding).
  { rewrite single_byte_runes by now apply single_byte_repeat.
    rewrite firstn_map. apply concat_singletons. }
  assert (Hn : List.length (firstn n padding) = n).
  { rewrite length_firstn. unfold padding. rewrite length_concat_repeat.
    unfold len in Hl. nia. }
  assert (Hsb : single_byte (firstn n padding) = true).
  { apply single_byte_firstn. now apply single_byte_repeat. }
  assert (Hmul' : (len ch + 1) * Z.abs width < 2 ^ 63).
  { pose proof (len_nonneg (String_ chars)).
    assert ((len ch + 1) * Z.abs width <= (len (String_ chars) + 2) * Z.abs width)
      by (apply Z.mul_le_mono_nonneg_r; lia).
    lia. }
  eexists. split; [apply (Pad_runes s width chars ch n); try reflexivity; assumption |].
  fold padding. rewrite Hp.
  assert (Hr : forall r, r = firstn n padding ++ s \/ r = s ++ firstn n padding ->
               len r = Z.max (len s) (Z.abs width) /\ single_byte r = true /\
               (Z.abs width <= len s -> r = s)).
  { intros r Hr. assert (Hlr : len r = len s + Z.of_nat n).
    { destruct Hr as [-> | ->]; rewrite len_app; unfold len; rewrite Hn; lia. }
    split; [rewrite Hlr; lia |]. split.
    - destruct Hr as [-> | ->]; rewrite single_byte_app, Hs, Hsb; reflexivity.
    - intros Hle. assert (Hz : n = 0%nat) by lia. rewrite Hz in Hr. cbn [firstn] in Hr.
      destruct Hr as [-> | ->]; [reflexivity | apply app_nil_r]. }
  apply Hr. destruct (width <? 0); auto.
Qed.

Lemma Pad_single_byte_witness :
  exists r,
    Pad (go "abc") 7 {| String_ := go "xy"; StringIsSet := true |} = Ok r /\
    len r = Z.max (len (go "abc")) (Z.abs 7) /\
    single_byte r = true /\
    (Z.abs 7 <= len (go "abc") -> r = go "abc").
Proof.
  apply (Pad_single_byte_width (go "abc") 7 {| String_ := go "xy"; StringIsSet := true |}).
  - reflexivity.
  - reflexivity.
  - lia.
  - vm_compute. reflexivity.
  - vm_compute. reflexivity.
Defined.

(** ** Decimal format options *)

Lemma RuneCount_zero s : RuneCountInString s = 0 -> s = [].
Proof.
  intros H. destruct s as [| c t]; [reflexivity |].
  pose proof (runes_nonempty (c :: t) ltac:(congruence)).
  rewrite RuneCount_runes in H. lia.
Qed.

(** One rune fills the whole string exactly when the string is one rune. *)
Lemma whole_rune value :
  value <> [] ->
  (snd (DecodeRuneInString value) = len value <-> RuneCountInString value = 1).
Proof.
  intros Hne. pose proof (rune_width_bounds value Hne) as Hw.
  assert (Hz : Z.of_nat (rune_width value) = snd (DecodeRuneInString value)).
  { unfold rune_width in *. lia. }
  rewrite RuneCount_runes, (runes_cons value Hne), len_cons, <- RuneCount_runes.
  split; intros H.
  - rewrite skipn_all2 by (unfold len in H; lia). reflexivity.
  - assert (H0 : RuneCountInString (skipn (rune_width value) value) = 0) by lia.
    apply RuneCount_zero in H0. apply (f_equal (@List.length _)) in H0.
    rewrite length_skipn in H0. cbn in H0. unfold len. lia.
Qed.

Lemma one_rune_test value :
  one_rune value =
  negb ((fst (DecodeRuneInString value) =? RuneError)
        || negb (snd (DecodeRuneInString value) =? len value)).
Proof.
  unfold one_rune. destruct value as [| c t].
  - reflexivity.
  - pose proof (whole_rune (c :: t) ltac:(congruence)) as H.
    destruct (Z.eqb_spec (snd (DecodeRuneInString (c :: t))) (len (c :: t))) as [E | E];
      destruct (Z.eqb_spec (RuneCountInString (c :: t)) 1) as [E1 | E1];
      try tauto; cbn [andb orb negb];
      now destruct (fst (DecodeRuneInString (c :: t)) =? RuneError).
Qed.

Section DecimalFormatFacts.

Variable Errorf : string -> list bytes -> error.
Variable NewDecimalFormat : DecimalFormat.

(** Assignments to the fields of two different options commute. *)
Lemma updateDecimalFormat_commute f k1 v1 k2 v2 f1 f12 :
  k1 <> k2 ->
  updateDecimalFormat Errorf f k1 v1 = Ok f1 ->
  updateDecimalFormat Errorf f1 k2 v2 = Ok f12 ->
  exists f2,
    updateDecimalFormat Errorf f k2 v2 = Ok f2 /\
    updateDecimalFormat Errorf f2 k1 v1 = Ok f12.
Proof.
  intros Hne H1 H2. unfold updateDecimalFormat in *.
  destruct (DecodeRuneInString v1) as [r1 w1].
  destruct (DecodeRuneInString v2) as [r2 w2].
  destruct ((r1 =? RuneError) || negb (w1 =? len v1));
    destruct ((r2 =? RuneError) || negb (w2 =? len v2));
    repeat match type of H1 with
           | context [bytes_eqb k1 ?lit] =>
               let E := fresh "E" in
               destruct (bytes_eqb k1 lit) eqn:E;
               [apply bytes_eqb_eq in E; subst k1 |]
           end;
    try discriminate H1;
    injection H1 as <-;
    repeat match type of H2 with
           | context [bytes_eqb k2 ?lit] =>
               let E := fresh "E" in
               destruct (bytes_eqb k2 lit) eqn:E;
               [apply bytes_eqb_eq in E; subst k2 |]
           end;
    try discriminate H2;
    injection H2 as <-;
    try (exfalso; apply Hne; reflexivity);
    (eexists; split; reflexivity).
Qed.

Lemma newDecimalFormat_loop_cons f0 key value rest f :
  newDecimalFormat_loop Errorf f0 ((key, value) :: rest) = Ok f ->
  exists k v f1,
    AsString key = Some k /\ AsString value = Some v /\
    updateDecimalFormat Errorf f0 k v = Ok f1 /\
    newDecimalFormat_loop Errorf f1 rest = Ok f.
Proof.
  cbn [newDecimalFormat_loop]. intros H.
  destruct (AsString key) as [k |]; [| discriminate].
  destruct (AsString value) as [v |]; [| discriminate].
  destruct (updateDecimalFormat Errorf f0 k v) as [f1 | e |] eqn:E; try discriminate.
  now exists k, v, f1.
Qed.

Lemma newDecimalFormat_loop_step f0 key value rest k v f1 :
  AsString key = Some k -> AsString value = Some v ->
  updateDecimalFormat Errorf f0 k v = Ok f1 ->
  newDecimalFormat_loop Errorf f0 ((key, value) :: rest) =
  newDecimalFormat_loop Errorf f1 rest.
Proof. intros Hk Hv Hu. cbn [newDecimalFormat_loop]. now rewrite Hk, Hv, Hu. Qed.

Lemma newDecimalFormat_loop_permutation opts opts' :
  Permutation opts opts' ->
  forall f0 f,
    NoDup (map (fun kv => AsString (fst kv)) opts) ->
    newDecimalFormat_loop Errorf f0 opts = Ok f ->
    newDecimalFormat_loop Errorf f0 opts' = Ok f.
Proof.
  induction 1 as [| [key value] l l' Hp IH | [key1 value1] [key2 value2] l | l l' l'' Hp1 IH1 Hp2 IH2];
    intros f0 f Hnd Hrun.
  - exact Hrun.
  - apply newDecimalFormat_loop_cons in Hrun as (k & v & f1 & Hk & Hv & Hu & Hrest).
    rewrite (newDecimalFormat_loop_step _ _ _ _ _ _ _ Hk Hv Hu).
    apply IH; [now inversion Hnd | exact Hrest].
  - apply newDecimalFormat_loop_cons in Hrun as (k1 & v1 & f1 & Hk1 & Hv1 & Hu1 & Hrun).
    apply newDecimalFormat_loop_cons in Hrun as (k2 & v2 & f12 & Hk2 & Hv2 & Hu2 & Hrest).
    assert (Hne : k1 <> k2).
    { intros ->. cbn [map fst] in Hnd. inversion Hnd as [| ? ? Hnot _]. subst.
      apply Hnot. left. congruence. }
    destruct (updateDecimalFormat_commute _ _ _ _ _ _ _ Hne Hu1 Hu2) as (f2 & Hu2' & Hu1').
    rewrite (newDecimalFormat_loop_step _ _ _ _ _ _ _ Hk2 Hv2 Hu2').
    rewrite (newDecimalFormat_loop_step _ _ _ _ _ _ _ Hk1 Hv1 Hu1').
    exact Hrest.
  - apply IH2.
    + eapply Permutation_NoDup; [apply Permutation_map; exact Hp1 | exact Hnd].
    + now apply IH1.
Qed.

Lemma rune_option_test f key value :
  In key rune_options ->
  (one_rune value = true ->
   exists f', updateDecimalFormat Errorf f key value = Ok f') /\
  (one_rune value = false ->
   updateDecimalFormat Errorf f key value
   = Err (Errorf "invalid value %q for option %q" [value; key])).
Proof.
  intros Hin. rewrite one_rune_test. unfold updateDecimalFormat.
  destruct (DecodeRuneInString value) as [r w]. cbn [fst snd].
  destruct ((r =? RuneError) || negb (w =? len value)); cbn [negb];
    (split; [intros Hv | intros Hv]; try discriminate Hv);
    repeat (destruct Hin as [<- | Hin]; [try reflexivity; eexists; reflexivity |]);
    destruct Hin.
Qed.

(** X19: for each of the seven options that name a character
    (decimal-separator, grouping-separator, exponent-separator, minus-sign,
    zero-digit, digit, pattern-separator), [updateDecimalFormat] accepts the
    value exactly when the value is one rune and that rune is not U+FFFD;
    so the empty string, two characters, an invalid byte and the
    replacement character itself are all refused, with the invalid-value
    error. *)
Theorem rune_option_accepts_one_rune f key value :
  In key rune_options ->
  ((exists f', updateDecimalFormat Errorf f key value = Ok f') <->
   RuneCountInString value = 1 /\ fst (DecodeRuneInString value) <> RuneError) /\
  ((forall f', updateDecimalFormat Errorf f key value <> Ok f') ->
   updateDecimalFormat Errorf f key value
   = Err (Errorf "invalid value %q for option %q" [value; key])).
Proof.
  intros Hin. destruct (rune_option_test f key value Hin) as [Hyes Hno].
  assert (Hone : one_rune value = true <->
                 RuneCountInString value = 1 /\ fst (DecodeRuneInString value) <> RuneError).
  { unfold one_rune. rewrite andb_true_iff, negb_true_iff, Z.eqb_eq, Z.eqb_neq. tauto. }
  destruct (one_rune value) eqn:E.
  - split.
    + split; [intros _; now apply Hone | intros _; now apply Hyes].
    + intros Hnone. destruct (Hyes eq_refl) as [f' Hf']. now destruct (Hnone f').
  - split.
    + split.
      * intros [f' Hf']. rewrite (Hno eq_refl) in Hf'. discriminate.
      * intros H. apply Hone in H. discriminate.
    + intros _. now apply Hno.
Qed.

(** X20: an option that is none of the eleven known ones is always
    refused, and the value is judged before the key: the error is the
    unknown-option error only when the value is one rune other than
    U+FFFD, and the invalid-value error otherwise. *)
Theorem unknown_option_rejected f key value :
  ~ In key (string_options ++ rune_options) ->
  updateDecimalFormat Errorf f key value =
  Err (if one_rune value
       then Errorf "unknown option %q" [key]
       else Errorf "invalid value %q for option %q" [value; key]).
Proof.
  intros Hnot. rewrite one_rune_test. unfold updateDecimalFormat.
  destruct (DecodeRuneInString value) as [r w]. cbn [fst snd].
  repeat match goal with
         | |- context [bytes_eqb key ?lit] =>
             let E := fresh "E" in
             destruct (bytes_eqb key lit) eqn:E;
             [apply bytes_eqb_eq in E; exfalso; apply Hnot; rewrite E; cbn; tauto |]
         end.
  now destruct ((r =? RuneError) || negb (w =? len value)).
Qed.

(** X21: when the keys of the options are distinct, as in a Go map, and
    [newDecimalFormat] succeeds for one order of the keys, it succeeds with
    the same format for every order: the result does not depend on the
    order in which [MapKeys] lists the map. *)
Theorem newDecimalFormat_order_independent opts opts' f :
  Permutation opts opts' ->
  NoDup (map (fun kv => AsString (fst kv)) opts) ->
  newDecimalFormat Errorf NewDecimalFormat opts = Ok f ->
  newDecimalFormat Errorf NewDecimalFormat opts' = Ok f.
Proof.
  intros Hp Hnd. unfold newDecimalFormat.
  now apply newDecimalFormat_loop_permutation.
Qed.

End DecimalFormatFacts.

Lemma rune_option_witness :
  ((exists f', updateDecimalFormat (fun _ _ => "refused") sample_format (go "digit") (go "@")
               = Ok f') <->
   RuneCountInString (go "@") = 1 /\ fst (DecodeRuneInString (go "@")) <> RuneError) /\
  ((forall f', updateDecimalFormat (fun _ _ => "refused") sample_format (go "digit") (go "@")
               <> Ok f') ->
   updateDecimalFormat (fun _ _ => "refused") sample_format (go "digit") (go "@")
   = Err "refused").
Proof.
  apply (rune_option_accepts_one_rune (fun _ _ => "refused") sample_format (go "digit") (go "@")).
  cbn. tauto.
Defined.

Lemma unknown_option_witness :
  updateDecimalFormat (fun f _ => f) sample_format (go "digits") (go "@@")
  = Err (if one_rune (go "@@") then "unknown option %q"
         else "invalid value %q for option %q").
Proof.
  apply (unknown_option_rejected (fun f _ => f) sample_format (go "digits") (go "@@")).
  cbn. intros H. repeat (destruct H as [H | H]; [discriminate H |]). exact H.
Defined.

Lemma newDecimalFormat_order_witness :
  newDecimalFormat (fun _ _ => "refused") sample_format (rev sample_options)
  = Ok (with_ZeroDigit (with_OptionalDigit (with_Infinity sample_format (go "inf")) 64) 111).
Proof.
  apply (newDecimalFormat_order_independent (fun _ _ => "refused") sample_format
           sample_options (rev sample_options)).
  - apply Permutation_rev.
  - repeat constructor; cbn; intuition discriminate.
  - vm_compute. reflexivity.
Defined.
